(** * WebRtcPeer: the per-endpoint WebRTC negotiation controller

    Shallow embedding of
    [openvidu-browser/src/OpenViduInternal/WebRtcPeer/WebRtcPeer.ts].

    The browser's [RTCPeerConnection] is an external collaborator: it is
    taken as an interface (a type class) and every method the controller
    calls on it is recorded in a call log, so that statements such as
    "no transceiver is added" can be read off the log.  Promises are
    modelled by the ordered list of [resolve]/[reject] calls made on them
    (the first call decides the state) together with the handlers they
    still have attached to promises of the engine. *)

From Stdlib Require Import String List ZArith Bool Arith Lia.
From Stdlib Require Import Permutation.
From Equations Require Import Equations.
Import ListNotations.

Open Scope string_scope.
Open Scope list_scope.

(** ** Data model *)

(** [RTCSignalingState] of the engine. *)
Inductive RTCSignalingState : Type :=
| stable
| have_local_offer
| have_remote_offer
| have_local_pranswer
| have_remote_pranswer
| closed.

(** The three values of [WebRtcPeerConfiguration.mode]. *)
Inductive Mode : Type := sendonly | recvonly | sendrecv.

Definition Mode_eqb (a b : Mode) : bool :=
  match a, b with
  | sendonly, sendonly | recvonly, recvonly | sendrecv, sendrecv => true
  | _, _ => false
  end.

(** The text a template literal prints for a mode. *)
Definition Mode_toString (m : Mode) : string :=
  match m with
  | sendonly => "sendonly"
  | recvonly => "recvonly"
  | sendrecv => "sendrecv"
  end.

Record RTCRtpEncodingParameters : Type := {
  rid : string;
  maxBitrate : Z;
  scaleResolutionDownBy : Z
}.

(** Table of sender video encodings for simulcast (source lines 51-75). *)
Definition simulcastVideoEncodings : list RTCRtpEncodingParameters :=
  [ {| rid := "r0"; maxBitrate := 700000; scaleResolutionDownBy := 16 |};
    {| rid := "r1"; maxBitrate := 800000; scaleResolutionDownBy := 8 |};
    {| rid := "r2"; maxBitrate := 900000; scaleResolutionDownBy := 1 |} ].

(** A media track; [kind] is the string the source compares with
    ["video"]. *)
Record MediaStreamTrack : Type := {
  trackId : nat;
  kind : string
}.

(** A media stream.  [streamId] stands for the identity of the JS object:
    two streams are the same object iff they have the same [streamId]. *)
Record MediaStream : Type := {
  streamId : nat;
  getTracks : list MediaStreamTrack
}.

Record MediaConstraints : Type := {
  audio : bool;
  video : bool
}.

(** [mediaConstraints[kind]] used as a condition: a missing property is
    [undefined], which is falsy. *)
Definition mediaConstraints_get (mc : MediaConstraints) (k : string) : bool :=
  if String.eqb k "audio" then audio mc
  else if String.eqb k "video" then video mc
  else false.

(** [Required<WebRtcPeerConfiguration>], the configuration a constructed
    peer holds.  The two callbacks and [iceServers] play no part in the
    operations modelled here and are left out. *)
Record WebRtcPeerConfiguration : Type := {
  mediaConstraints : MediaConstraints;
  simulcast : bool;
  mediaStream : option MediaStream;
  mode : Mode;
  id : string
}.

Definition set_mediaStream (s : option MediaStream)
  (c : WebRtcPeerConfiguration) : WebRtcPeerConfiguration :=
  {| mediaConstraints := mediaConstraints c;
     simulcast := simulcast c;
     mediaStream := s;
     mode := mode c;
     id := id c |}.

Inductive RTCSdpType : Type := offer | answer | pranswer | rollback.

Record RTCSessionDescriptionInit : Type := {
  type : RTCSdpType;
  sdp : string
}.

(** An ICE candidate: its text and the media line it belongs to.  A
    field that is [undefined] is [None]. *)
Record RTCIceCandidate : Type := {
  candidate : string;
  sdpMid : option string;
  sdpMLineIndex : option nat
}.

(** [l.push(c)] *)
Definition push (c : RTCIceCandidate) (l : list RTCIceCandidate)
  : list RTCIceCandidate := l ++ [c].

Record RTCRtpTransceiverInit : Type := {
  direction : Mode;
  streams : list MediaStream;
  sendEncodings : option (list RTCRtpEncodingParameters)
}.

Record RTCOfferOptions : Type := {
  offerToReceiveAudio : bool;
  offerToReceiveVideo : bool
}.

Record RTCRtpReceiver : Type := { track : MediaStreamTrack }.

Record RTCRtpTransceiver : Type := {
  mid : nat;
  receiver : RTCRtpReceiver
}.

(** ** The engine interface *)

(** Every use the controller makes of [this.pc] that is not a plain read. *)
Inductive EngineCall : Type :=
| Close
| AddTransceiverTrack (t : MediaStreamTrack) (init : RTCRtpTransceiverInit)
| AddTransceiverKind (k : string) (init : RTCRtpTransceiverInit)
| AddTrack (t : MediaStreamTrack) (s : MediaStream)
| SetDirection (tc : RTCRtpTransceiver) (m : Mode)
| CreateOffer (options : option RTCOfferOptions)
| CreateAnswer
| SetLocalDescription (d : RTCSessionDescriptionInit)
| SetRemoteDescription (d : RTCSessionDescriptionInit)
| AddIceCandidate (c : RTCIceCandidate).

(** What the controller reads from an [RTCPeerConnection], and the
    synchronous effect [invoke] of calling one of its methods.  The
    promise such a method returns is settled later, by the engine. *)
Class RTCPeerConnection (E : Type) : Type := {
  signalingState : E -> RTCSignalingState;
  localDescription : E -> option RTCSessionDescriptionInit;
  remoteDescription : E -> option RTCSessionDescriptionInit;
  (** [name in pc] *)
  hasMethod : string -> E -> bool;
  getTransceivers : E -> list RTCRtpTransceiver;
  invoke : EngineCall -> E -> E
}.

(** ** Promises *)

Inductive JsValue : Type :=
| JsUndefined
| JsString (s : string)
| JsError (message : string)
| JsDescription (d : RTCSessionDescriptionInit)
| JsDOMException (name : string).

(** A call of [resolve] or [reject]; also the way a promise of the engine
    ends. *)
Inductive Settled : Type :=
| Fulfilled (value : JsValue)
| Rejected (reason : JsValue).

(** The [.then(...).catch(...)] pairs the source attaches to a promise of
    the engine. *)
Inductive Handlers : Type :=
  (** [.then((sdp) => resolve(sdp)).catch((error) => reject(error))] *)
| ThenResolveWith
  (** [.then(() => resolve()).catch(error => reject(error))] *)
| ThenResolve
  (** the handlers of [processLocalOffer], which look at
      [this.pc.localDescription] *)
| ThenCheckLocalDescription.

(** A promise made by [new Promise((resolve, reject) => ...)]:
    [settleCalls] are the calls of [resolve]/[reject] so far, oldest
    first; [reactions] are the engine promises it still waits for. *)
Record Promise : Type := {
  settleCalls : list Settled;
  reactions : list (EngineCall * Handlers)
}.

Definition pendingPromise : Promise :=
  {| settleCalls := []; reactions := [] |}.

(** Only the first call of [resolve] or [reject] counts. *)
Definition promiseState (p : Promise) : option Settled :=
  hd_error (settleCalls p).

Definition settle (s : Settled) (p : Promise) : Promise :=
  {| settleCalls := settleCalls p ++ [s]; reactions := reactions p |}.

Definition attach (c : EngineCall) (h : Handlers) (p : Promise) : Promise :=
  {| settleCalls := settleCalls p; reactions := reactions p ++ [(c, h)] |}.

Fixpoint remove_nth {A : Type} (n : nat) (l : list A) : list A :=
  match n, l with
  | _, [] => []
  | O, _ :: l' => l'
  | S n', x :: l' => x :: remove_nth n' l'
  end.

Section Peer.

Context {E : Type} `{RTCPeerConnection E}.

(** The fields of a [WebRtcPeer] object.  [engineCalls] and
    [nextStreamId] are ghost state: the log of the calls made on [pc],
    oldest first, and the identity the next [new MediaStream()] gets. *)
Record WebRtcPeer : Type := mkWebRtcPeer {
  pc : E;
  remoteCandidatesQueue : list RTCIceCandidate;
  localCandidatesQueue : list RTCIceCandidate;
  configuration : WebRtcPeerConfiguration;
  iceCandidateList : list RTCIceCandidate;
  candidategatheringdone : bool;
  engineCalls : list EngineCall;
  nextStreamId : nat
}.

Definition set_pc (e : E) (w : WebRtcPeer) : WebRtcPeer :=
  mkWebRtcPeer e (remoteCandidatesQueue w) (localCandidatesQueue w)
    (configuration w) (iceCandidateList w) (candidategatheringdone w)
    (engineCalls w) (nextStreamId w).

Definition set_remoteCandidatesQueue (q : list RTCIceCandidate)
  (w : WebRtcPeer) : WebRtcPeer :=
  mkWebRtcPeer (pc w) q (localCandidatesQueue w)
    (configuration w) (iceCandidateList w) (candidategatheringdone w)
    (engineCalls w) (nextStreamId w).

Definition set_localCandidatesQueue (q : list RTCIceCandidate)
  (w : WebRtcPeer) : WebRtcPeer :=
  mkWebRtcPeer (pc w) (remoteCandidatesQueue w) q
    (configuration w) (iceCandidateList w) (candidategatheringdone w)
    (engineCalls w) (nextStreamId w).

Definition set_configuration (c : WebRtcPeerConfiguration)
  (w : WebRtcPeer) : WebRtcPeer :=
  mkWebRtcPeer (pc w) (remoteCandidatesQueue w) (localCandidatesQueue w)
    c (iceCandidateList w) (candidategatheringdone w)
    (engineCalls w) (nextStreamId w).

Definition set_iceCandidateList (l : list RTCIceCandidate)
  (w : WebRtcPeer) : WebRtcPeer :=
  mkWebRtcPeer (pc w) (remoteCandidatesQueue w) (localCandidatesQueue w)
    (configuration w) l (candidategatheringdone w)
    (engineCalls w) (nextStreamId w).

(** Calling a method of [this.pc]: the engine takes its synchronous step
    and the call is logged. *)
Definition pc_call (c : EngineCall) (w : WebRtcPeer) : WebRtcPeer :=
  mkWebRtcPeer (invoke c (pc w)) (remoteCandidatesQueue w)
    (localCandidatesQueue w) (configuration w) (iceCandidateList w)
    (candidategatheringdone w) (engineCalls w ++ [c]) (nextStreamId w).

(** [new MediaStream()]: a stream without tracks, with a new identity. *)
Definition new_MediaStream (w : WebRtcPeer) : MediaStream * WebRtcPeer :=
  ({| streamId := nextStreamId w; getTracks := [] |},
   mkWebRtcPeer (pc w) (remoteCandidatesQueue w) (localCandidatesQueue w)
     (configuration w) (iceCandidateList w) (candidategatheringdone w)
     (engineCalls w) (S (nextStreamId w))).

(** The state of a peer the constructor returns (field initialisers of
    lines 94-101), for a configuration whose optional fields have been
    filled in and a new engine. *)
Definition WebRtcPeer_new (c : WebRtcPeerConfiguration) (e : E)
  : WebRtcPeer :=
  mkWebRtcPeer e [] [] c [] false []
    match mediaStream c with
    | Some s => S (streamId s)
    | None => 0
    end.

(** ** The body of a promise executor

    A computation over the peer and the promise under construction.
    The result [None] means that the executor has run a [return;]. *)
Definition Exec (A : Type) : Type :=
  WebRtcPeer * Promise -> option A * (WebRtcPeer * Promise).

Definition ret {A : Type} (a : A) : Exec A := fun s => (Some a, s).

Definition bind {A B : Type} (m : Exec A) (k : A -> Exec B) : Exec B :=
  fun s =>
    match m s with
    | (Some a, s') => k a s'
    | (None, s') => (None, s')
    end.

(** The statement [return;]. *)
Definition return_ {A : Type} : Exec A := fun s => (None, s).

(** Reading [this]. *)
Definition this : Exec WebRtcPeer := fun s => (Some (fst s), s).

Definition update (f : WebRtcPeer -> WebRtcPeer) : Exec unit :=
  fun s => (Some tt, (f (fst s), snd s)).

Definition resolve (v : JsValue) : Exec unit :=
  fun s => (Some tt, (fst s, settle (Fulfilled v) (snd s))).

Definition reject (v : JsValue) : Exec unit :=
  fun s => (Some tt, (fst s, settle (Rejected v) (snd s))).

(** [this.pc.m(...).then(...).catch(...)]: the method is called now, the
    handlers run when the engine settles the promise it returned. *)
Definition pc_then (c : EngineCall) (h : Handlers) : Exec unit :=
  fun s => (Some tt, (pc_call c (fst s), attach c h (snd s))).

End Peer.

Arguments WebRtcPeer E : clear implicits.
Arguments Exec E A : clear implicits.

Notation "x <- c1 ;; c2" := (bind c1 (fun x => c2))
  (at level 61, c1 at next level, right associativity).
Notation "c1 ;; c2" := (bind c1 (fun _ => c2))
  (at level 61, right associativity).

(** A value together with the equation that says where it came from. *)
Definition inspect {A : Type} (a : A) : {b : A | a = b} :=
  exist _ a eq_refl.

(** ** The methods of [WebRtcPeer] *)

Section Methods.

Context {E : Type} `{RTCPeerConnection E}.

(** [new Promise(executor)]: the executor runs at once, on a pending
    promise. *)
Definition newPromise (executor : Exec E unit) (w : WebRtcPeer E)
  : WebRtcPeer E * Promise :=
  snd (executor (w, pendingPromise)).

(** [for (const x of l) { body }]; a body that ends normally (also by
    [continue]) goes on with the next element. *)
Fixpoint forOf {A : Type} (l : list A) (body : A -> Exec E unit)
  : Exec E unit :=
  match l with
  | [] => ret tt
  | x :: l' => body x ;; forOf l' body
  end.

(** What the attached handlers do when the engine settles its promise
    with [o], the peer being [w] at that time. *)
Definition runHandlers (h : Handlers) (o : Settled) (w : WebRtcPeer E)
  (p : Promise) : Promise :=
  match o with
  | Rejected error => settle (Rejected error) p
  | Fulfilled v =>
      match h with
      | ThenResolveWith => settle (Fulfilled v) p
      | ThenResolve => settle (Fulfilled JsUndefined) p
      | ThenCheckLocalDescription =>
          match localDescription (pc w) with
          | Some _ => settle (Fulfilled JsUndefined) p
          | None =>
              settle (Rejected (JsString "Local description is not defined")) p
          end
      end
  end.

(** The engine settles the [i]-th promise that [p] waits for. *)
Definition deliver (i : nat) (o : Settled) (w : WebRtcPeer E) (p : Promise)
  : option Promise :=
  match nth_error (reactions p) i with
  | Some (_, h) =>
      Some (runHandlers h o w
              {| settleCalls := settleCalls p;
                 reactions := remove_nth i (reactions p) |})
  | None => None
  end.

(** All the ways a promise can go on from [p]: the engine settles the
    promises [p] waits for, in any order, with any outcome, the peer
    being in any state by then. *)
Inductive future : Promise -> Promise -> Prop :=
| future_now : forall p, future p p
| future_deliver : forall p i o w p' q,
    deliver i o w p = Some p' -> future p' q -> future p q.

(** The [while] loop of the [signalingstatechange] listener, lines
    135-138:
    [while (this.iceCandidateList.length > 0)
       { let candidate = this.iceCandidateList.shift();
         this.pc.addIceCandidate(candidate); }].
    The promise [addIceCandidate] returns is dropped. *)
Equations? drainIceCandidateList (w : WebRtcPeer E) : WebRtcPeer E
  by wf (length (iceCandidateList w)) lt :=
  drainIceCandidateList w with inspect (iceCandidateList w) := {
    | exist _ [] _ => w
    | exist _ (candidate :: rest) _ =>
        drainIceCandidateList
          (pc_call (AddIceCandidate candidate) (set_iceCandidateList rest w))
  }.
Proof.
  simpl. rewrite e. simpl. lia.
Qed.

(** The [icecandidate] listener the constructor registers, lines
    123-131; [event_candidate] is [event.candidate].  The call of the
    user's [onIceCandidate] has no effect on the peer. *)
Definition onicecandidate (event_candidate : option RTCIceCandidate)
  (w : WebRtcPeer E) : WebRtcPeer E :=
  match event_candidate with
  | Some candidate0 =>
      if negb (String.eqb (candidate candidate0) "") then
        set_localCandidatesQueue
          (push {| candidate := candidate candidate0;
                   sdpMid := None;
                   sdpMLineIndex := None |}
                (localCandidatesQueue w)) w
      else w
  | None => w
  end.

(** The [signalingstatechange] listener the constructor registers, lines
    133-140. *)
Definition onsignalingstatechange (w : WebRtcPeer E) : WebRtcPeer E :=
  match signalingState (pc w) with
  | stable => drainIceCandidateList w
  | _ => w
  end.

Definition getId (w : WebRtcPeer E) : string := id (configuration w).

(** [dispose()].  [this.pc] is assigned by the constructor and is never
    null, so the test [if (this.pc)] succeeds. *)
Definition dispose (w : WebRtcPeer E) : WebRtcPeer E :=
  match signalingState (pc w) with
  | closed => w
  | _ =>
      let w := pc_call Close w in
      let w := set_remoteCandidatesQueue [] w in
      set_localCandidatesQueue [] w
  end.

Definition createOffer : WebRtcPeer E -> WebRtcPeer E * Promise :=
  newPromise (
    w <- this ;;
    if hasMethod "addTransceiver" (pc w) then
      (if negb (Mode_eqb (mode (configuration w)) recvonly) then
         match mediaStream (configuration w) with
         | None =>
             reject (JsError (String.append (Mode_toString (mode (configuration w)))
               " direction requested, but no stream was configured to be sent")) ;;
             return_
         | Some ms =>
             forOf (getTracks ms) (fun track =>
               let tcInit :=
                 {| direction := mode (configuration w);
                    streams := [ms];
                    sendEncodings := None |} in
               let tcInit :=
                 if String.eqb (kind track) "video" then
                   {| direction := direction tcInit;
                      streams := streams tcInit;
                      sendEncodings := Some simulcastVideoEncodings |}
                 else tcInit in
               update (pc_call (AddTransceiverTrack track tcInit)))
         end
       else
         forOf ["audio"; "video"] (fun kind =>
           w <- this ;;
           if negb (mediaConstraints_get (mediaConstraints (configuration w)) kind)
           then ret tt
           else
             update (fun w =>
               let (ms, w) := new_MediaStream w in
               set_configuration (set_mediaStream (Some ms) (configuration w)) w) ;;
             w <- this ;;
             update (pc_call (AddTransceiverKind kind
               {| direction := mode (configuration w);
                  streams := match mediaStream (configuration w) with
                             | Some ms => [ms]
                             | None => []
                             end;
                  sendEncodings := None |})))) ;;
      pc_then (CreateOffer None) ThenResolveWith
    else
      (match mediaStream (configuration w) with
       | Some ms =>
           forOf (getTracks ms) (fun track => update (pc_call (AddTrack track ms)))
       | None => ret tt
       end) ;;
      let hasAudio := audio (mediaConstraints (configuration w)) in
      let hasVideo := video (mediaConstraints (configuration w)) in
      let options :=
        {| offerToReceiveAudio :=
             negb (Mode_eqb (mode (configuration w)) sendonly) && hasAudio;
           offerToReceiveVideo :=
             negb (Mode_eqb (mode (configuration w)) sendonly) && hasVideo |} in
      pc_then (CreateOffer (Some options)) ThenResolveWith).

Definition createAnswer : WebRtcPeer E -> WebRtcPeer E * Promise :=
  newPromise (
    w <- this ;;
    if hasMethod "getTransceivers" (pc w) then
      forOf ["audio"; "video"] (fun kind0 =>
        w <- this ;;
        if negb (mediaConstraints_get (mediaConstraints (configuration w)) kind0)
        then ret tt
        else
          let tc :=
            find (fun tc => String.eqb (kind (track (receiver tc))) kind0)
                 (getTransceivers (pc w)) in
          match tc with
          | Some tc => update (pc_call (SetDirection tc (mode (configuration w))))
          | None =>
              reject (JsError (String.append kind0
                " requested, but no transceiver was created from remote description"))
          end) ;;
      pc_then CreateAnswer ThenResolveWith
    else
      (* there is nothing to do *)
      ret tt).

Definition processLocalOffer (offer0 : RTCSessionDescriptionInit)
  : WebRtcPeer E -> WebRtcPeer E * Promise :=
  newPromise (pc_then (SetLocalDescription offer0) ThenCheckLocalDescription).

(** The [async] method [setRemoteDescription]: it calls the engine when
    it is invoked and hands on the engine's promise. *)
Definition setRemoteDescription (sdp0 : RTCSessionDescriptionInit)
  (h : Handlers) : Exec E unit :=
  pc_then (SetRemoteDescription sdp0) h.

Definition processRemoteOffer (sdpOffer : string)
  : WebRtcPeer E -> WebRtcPeer E * Promise :=
  newPromise (
    let offer0 := {| type := offer; sdp := sdpOffer |} in
    w <- this ;;
    (match signalingState (pc w) with
     | closed =>
         reject (JsString
           "RTCPeerConnection is closed when trying to set remote description")
     | _ => ret tt
     end) ;;
    setRemoteDescription offer0 ThenResolve).

Definition processLocalAnswer (answer0 : RTCSessionDescriptionInit)
  : WebRtcPeer E -> WebRtcPeer E * Promise :=
  newPromise (
    w <- this ;;
    (match signalingState (pc w) with
     | closed =>
         reject (JsString
           "RTCPeerConnection is closed when trying to set local description")
     | _ => ret tt
     end) ;;
    pc_then (SetLocalDescription answer0) ThenResolve).

Definition processRemoteAnswer (sdpAnswer : string)
  : WebRtcPeer E -> WebRtcPeer E * Promise :=
  newPromise (
    let answer0 := {| type := answer; sdp := sdpAnswer |} in
    w <- this ;;
    (match signalingState (pc w) with
     | closed =>
         reject (JsString
           "RTCPeerConnection is closed when trying to set remote description")
     | _ => ret tt
     end) ;;
    setRemoteDescription answer0 ThenResolve).

Definition addIceCandidate (iceCandidate : RTCIceCandidate)
  : WebRtcPeer E -> WebRtcPeer E * Promise :=
  newPromise (
    update (fun w =>
      set_remoteCandidatesQueue (push iceCandidate (remoteCandidatesQueue w)) w) ;;
    w <- this ;;
    match signalingState (pc w) with
    | closed => reject (JsError "PeerConnection object is closed")
    | stable =>
        match remoteDescription (pc w) with
        | Some _ => pc_then (AddIceCandidate iceCandidate) ThenResolve
        | None =>
            update (fun w =>
              set_iceCandidateList (push iceCandidate (iceCandidateList w)) w) ;;
            resolve JsUndefined
        end
    | _ =>
        update (fun w =>
          set_iceCandidateList (push iceCandidate (iceCandidateList w)) w) ;;
        resolve JsUndefined
    end).

End Methods.

(** ** Vocabulary of the statements *)

Section Vocabulary.

Context {E : Type} `{RTCPeerConnection E}.

Implicit Types w : WebRtcPeer E.

Definition isClose (c : EngineCall) : bool :=
  match c with
  | Close => true
  | _ => false
  end.

(** How often [close()] has been called on the engine. *)
Definition closeCount w : nat := length (filter isClose (engineCalls w)).

(** The receive-only transceiver [createOffer] adds for [kind], bound to
    a new stream without tracks whose identity is [n]. *)
Definition recvonlyTransceiver (k : string) (n : nat) : EngineCall :=
  AddTransceiverKind k
    {| direction := recvonly;
       streams := [ {| streamId := n; getTracks := [] |} ];
       sendEncodings := None |}.

(** The transceiver [createOffer] adds for a track of the stream [ms] it
    sends. *)
Definition trackTransceiver (m : Mode) (ms : MediaStream)
  (t : MediaStreamTrack) : EngineCall :=
  AddTransceiverTrack t
    {| direction := m;
       streams := [ms];
       sendEncodings :=
         if String.eqb (kind t) "video"
         then Some [ {| rid := "r0"; maxBitrate := 700000;
                        scaleResolutionDownBy := 16 |};
                     {| rid := "r1"; maxBitrate := 800000;
                        scaleResolutionDownBy := 8 |};
                     {| rid := "r2"; maxBitrate := 900000;
                        scaleResolutionDownBy := 1 |} ]
         else None |}.

(** The calls [createOffer] makes on the engine, path by path. *)
Definition createOffer_calls w : list EngineCall :=
  let c := configuration w in
  if hasMethod "addTransceiver" (pc w) then
    match mode c with
    | recvonly =>
        (if audio (mediaConstraints c)
         then [recvonlyTransceiver "audio" (nextStreamId w)] else [])
        ++ (if video (mediaConstraints c)
            then [recvonlyTransceiver "video"
                    (if audio (mediaConstraints c)
                     then S (nextStreamId w) else nextStreamId w)]
            else [])
        ++ [CreateOffer None]
    | m =>
        match mediaStream c with
        | None => []
        | Some ms => map (trackTransceiver m ms) (getTracks ms) ++ [CreateOffer None]
        end
    end
  else
    match mediaStream c with
    | Some ms => map (fun t => AddTrack t ms) (getTracks ms)
    | None => []
    end
    ++ [CreateOffer (Some
          {| offerToReceiveAudio :=
               negb (Mode_eqb (mode c) sendonly) && audio (mediaConstraints c);
             offerToReceiveVideo :=
               negb (Mode_eqb (mode c) sendonly) && video (mediaConstraints c) |})].

(** The table of encodings is attached to every video track the peer
    sends: [createOffer] adds, for each video track of the stream of a
    peer whose mode is not [recvonly], a transceiver that carries the
    three encodings. *)
Definition everyVideoTrackCarriesTable w : Prop :=
  mode (configuration w) <> recvonly ->
  forall ms t,
    mediaStream (configuration w) = Some ms ->
    In t (getTracks ms) ->
    kind t = "video" ->
    exists init,
      In (AddTransceiverTrack t init) (engineCalls (fst (createOffer w))) /\
      sendEncodings init =
        Some [ {| rid := "r0"; maxBitrate := 700000;
                  scaleResolutionDownBy := 16 |};
               {| rid := "r1"; maxBitrate := 800000;
                  scaleResolutionDownBy := 8 |};
               {| rid := "r2"; maxBitrate := 900000;
                  scaleResolutionDownBy := 1 |} ].

(** A promise that is settled, or that waits for a promise of the
    engine whose handlers will settle it. *)
Definition willSettle (p : Promise) : Prop :=
  promiseState p <> None \/ reactions p <> [].

Definition isClosed (s : RTCSignalingState) : bool :=
  match s with
  | closed => true
  | _ => false
  end.

(** A candidate [snd ec] arrives when the engine has moved on to
    [fst ec]: the engine reports its change of state, then
    [addIceCandidate] is called. *)
Definition arrive (ec : E * RTCIceCandidate) w : WebRtcPeer E :=
  fst (addIceCandidate (snd ec) (onsignalingstatechange (set_pc (fst ec) w))).

Definition arrivals (l : list (E * RTCIceCandidate)) w : WebRtcPeer E :=
  fold_left (fun w ec => arrive ec w) l w.

(** The candidates of [l] that [addIceCandidate] did not refuse. *)
Definition notRefused (l : list (E * RTCIceCandidate)) : list RTCIceCandidate :=
  map snd (filter (fun ec => negb (isClosed (signalingState (fst ec)))) l).

End Vocabulary.

(** ** The constructor and its subclasses *)

Record RTCIceServer : Type := { urls : list string }.

(** [WebRtcPeerConfiguration] as a caller writes it, lines 77-90: the
    last four fields may be missing ([None]); [mediaStream] may also be
    present and [null] ([Some None]).  The two callbacks are left out. *)
Record WebRtcPeerConfigurationInit : Type := {
  init_mediaConstraints : MediaConstraints;
  init_simulcast : bool;
  init_iceServers : option (list RTCIceServer);
  init_mediaStream : option (option MediaStream);
  init_mode : option Mode;
  init_id : option string
}.

Definition set_init_mode (m : Mode) (c : WebRtcPeerConfigurationInit)
  : WebRtcPeerConfigurationInit :=
  {| init_mediaConstraints := init_mediaConstraints c;
     init_simulcast := init_simulcast c;
     init_iceServers := init_iceServers c;
     init_mediaStream := init_mediaStream c;
     init_mode := Some m;
     init_id := init_id c |}.

Section Constructor.

Context {E : Type} `{RTCPeerConnection E}.

(** What the constructor gets from outside this file: the list
    [freeice()] returns, the text [uuidv4()] returns, and
    [new RTCPeerConnection({ iceServers })]. *)
Variable freeice : list RTCIceServer.
Variable uuidv4 : string.
Variable new_RTCPeerConnection : list RTCIceServer -> E.

Definition generateUniqueId : string := uuidv4.

(** The value of [this.configuration.iceServers], lines 108-112. *)
Definition constructor_iceServers (c : WebRtcPeerConfigurationInit)
  : list RTCIceServer :=
  match init_iceServers c with
  | Some (server :: servers) => server :: servers
  | Some [] => freeice
  | None => freeice
  end.

(** The other fields of [this.configuration], lines 106-119.  An [id]
    that is the empty text is falsy. *)
Definition constructor_configuration (c : WebRtcPeerConfigurationInit)
  : WebRtcPeerConfiguration :=
  {| mediaConstraints := init_mediaConstraints c;
     simulcast := init_simulcast c;
     mediaStream :=
       match init_mediaStream c with
       | Some s => s
       | None => None
       end;
     mode :=
       match init_mode c with
       | Some m => m
       | None => sendrecv
       end;
     id :=
       match init_id c with
       | Some s => if String.eqb s EmptyString then generateUniqueId else s
       | None => generateUniqueId
       end |}.

(** [new WebRtcPeer(configuration)]. *)
Definition WebRtcPeer_constructor (c : WebRtcPeerConfigurationInit)
  : WebRtcPeer E :=
  WebRtcPeer_new (constructor_configuration c)
    (new_RTCPeerConnection (constructor_iceServers c)).

(** [new WebRtcPeerRecvonly(configuration)], lines 454-459. *)
Definition WebRtcPeerRecvonly_constructor (c : WebRtcPeerConfigurationInit)
  : WebRtcPeer E :=
  WebRtcPeer_constructor (set_init_mode recvonly c).

(** [new WebRtcPeerSendonly(configuration)], lines 461-466. *)
Definition WebRtcPeerSendonly_constructor (c : WebRtcPeerConfigurationInit)
  : WebRtcPeer E :=
  WebRtcPeer_constructor (set_init_mode sendonly c).

(** [new WebRtcPeerSendrecv(configuration)], lines 468-473. *)
Definition WebRtcPeerSendrecv_constructor (c : WebRtcPeerConfigurationInit)
  : WebRtcPeer E :=
  WebRtcPeer_constructor (set_init_mode sendrecv c).

End Constructor.

(** ** The listener of the ICE connection state *)

Inductive RTCIceConnectionState : Type :=
| ice_new
| ice_checking
| ice_connected
| ice_completed
| ice_failed
| ice_disconnected
| ice_closed.

(** The members of [ExceptionEventName] this file uses. *)
Inductive ExceptionEventName : Type :=
| ICE_CONNECTION_FAILED
| ICE_CONNECTION_DISCONNECTED.

(** The methods of the logger this listener calls. *)
Inductive LogLevel : Type := logger_log | logger_warn | logger_error.

(** What one run of the listener does: the lines it logs and the calls
    of [onIceConnectionStateException] it makes. *)
Record ListenerEffects : Type := {
  logged : list (LogLevel * string);
  exceptions : list (ExceptionEventName * string)
}.

(** A text between double quotes. *)
Definition quoted (s : string) : string :=
  String (Ascii.ascii_of_nat 34)
    (String.append s (String (Ascii.ascii_of_nat 34) EmptyString)).

Section IceConnection.

Context {E : Type} `{RTCPeerConnection E}.

(** The listener [addIceConnectionStateChangeListener(otherId)]
    registers, lines 411-441; [iceConnectionState] is the value of
    [this.pc.iceConnectionState] when it runs. *)
Definition oniceconnectionstatechange (otherId : string)
  (iceConnectionState : RTCIceConnectionState) (w : WebRtcPeer E)
  : ListenerEffects :=
  match iceConnectionState with
  | ice_disconnected =>
      let msg1 := String.concat EmptyString
        [ "IceConnectionState of RTCPeerConnection "; id (configuration w);
          " ("; otherId; ") change to "; quoted "disconnected";
          ". Possible network disconnection" ] in
      {| logged := [(logger_warn, msg1)];
         exceptions := [(ICE_CONNECTION_DISCONNECTED, msg1)] |}
  | ice_failed =>
      let msg2 := String.concat EmptyString
        [ "IceConnectionState of RTCPeerConnection "; id (configuration w);
          " ("; otherId; ") to "; quoted "failed" ] in
      {| logged := [(logger_error, msg2)];
         exceptions := [(ICE_CONNECTION_FAILED, msg2)] |}
  | ice_closed =>
      {| logged := [(logger_log, String.concat EmptyString
           [ "IceConnectionState of RTCPeerConnection "; id (configuration w);
             " ("; otherId; ") change to "; quoted "closed" ])];
         exceptions := [] |}
  | ice_new =>
      {| logged := [(logger_log, String.concat EmptyString
           [ "IceConnectionState of RTCPeerConnection "; id (configuration w);
             " ("; otherId; ") change to "; quoted "new" ])];
         exceptions := [] |}
  | ice_checking =>
      {| logged := [(logger_log, String.concat EmptyString
           [ "IceConnectionState of RTCPeerConnection "; id (configuration w);
             " ("; otherId; ") change to "; quoted "checking" ])];
         exceptions := [] |}
  | ice_connected =>
      {| logged := [(logger_log, String.concat EmptyString
           [ "IceConnectionState of RTCPeerConnection "; id (configuration w);
             " ("; otherId; ") change to "; quoted "connected" ])];
         exceptions := [] |}
  | ice_completed =>
      {| logged := [(logger_log, String.concat EmptyString
           [ "IceConnectionState of RTCPeerConnection "; id (configuration w);
             " ("; otherId; ") change to "; quoted "completed" ])];
         exceptions := [] |}
  end.

End IceConnection.

(** ** The life of a peer as a sequence of events *)

Section Events.

Context {E : Type} `{RTCPeerConnection E}.

Implicit Types w : WebRtcPeer E.

(** What can happen to a peer between two calls of the negotiation: the
    engine moves to another state by itself, the engine reports a change
    of its signaling state, it reports a candidate of its own
    ([event.candidate]), or a candidate of the other side is handed to
    [addIceCandidate]. *)
Inductive PeerEvent : Type :=
| EngineMoves (e : E)
| SignalingStateChange
| LocalCandidate (event_candidate : option RTCIceCandidate)
| RemoteCandidate (c : RTCIceCandidate).

Definition handle (ev : PeerEvent) w : WebRtcPeer E :=
  match ev with
  | EngineMoves e => set_pc e w
  | SignalingStateChange => onsignalingstatechange w
  | LocalCandidate event_candidate => onicecandidate event_candidate w
  | RemoteCandidate c => fst (addIceCandidate c w)
  end.

Definition handleAll (evs : list PeerEvent) w : WebRtcPeer E :=
  fold_left (fun w ev => handle ev w) evs w.

(** The candidates handed to [addIceCandidate], in order. *)
Definition remoteCandidates (evs : list PeerEvent) : list RTCIceCandidate :=
  flat_map (fun ev => match ev with
                      | RemoteCandidate c => [c]
                      | _ => []
                      end) evs.

(** For each candidate of its own the engine reported, but for the marks
    of the end of the gathering ([null], or an empty text), a new object
    that holds the text of the candidate and nothing else. *)
Definition gatheredCandidates (evs : list PeerEvent) : list RTCIceCandidate :=
  flat_map (fun ev => match ev with
                      | LocalCandidate (Some c) =>
                          if String.eqb (candidate c) EmptyString then []
                          else [ {| candidate := candidate c;
                                    sdpMid := None;
                                    sdpMLineIndex := None |} ]
                      | _ => []
                      end) evs.

(** The candidates handed to [addIceCandidate] while the connection was
    not closed. *)
Fixpoint acceptedCandidates (evs : list PeerEvent) w : list RTCIceCandidate :=
  match evs with
  | [] => []
  | ev :: evs' =>
      match ev with
      | RemoteCandidate c =>
          if isClosed (signalingState (pc w)) then [] else [c]
      | _ => []
      end ++ acceptedCandidates evs' (handle ev w)
  end.

(** The candidates the engine was given, in the order of the calls. *)
Definition appliedCandidates (calls : list EngineCall) : list RTCIceCandidate :=
  flat_map (fun c => match c with
                     | AddIceCandidate x => [x]
                     | _ => []
                     end) calls.

(** The transceiver [createAnswer] finds for a kind. *)
Definition transceiverFor (k : string) w : option RTCRtpTransceiver :=
  find (fun tc => String.eqb (kind (track (receiver tc))) k)
       (getTransceivers (pc w)).

(** Whether [createAnswer] has to deal with a kind. *)
Definition wanted (k : string) w : bool :=
  mediaConstraints_get (mediaConstraints (configuration w)) k.

(** The calls by which [createAnswer] forces the direction of the
    transceivers of the wanted kinds it finds. *)
Definition directionCalls w : list EngineCall :=
  flat_map (fun k =>
    if wanted k w then
      match transceiverFor k w with
      | Some tc => [SetDirection tc (mode (configuration w))]
      | None => []
      end
    else []) ["audio"; "video"].

(** The rejections [createAnswer] makes for the wanted kinds it finds no
    transceiver for. *)
Definition missingKinds w : list Settled :=
  flat_map (fun k =>
    if wanted k w then
      match transceiverFor k w with
      | Some _ => []
      | None =>
          [Rejected (JsError (String.append k
             " requested, but no transceiver was created from remote description"))]
      end
    else []) ["audio"; "video"].

(** What no negotiation method changes: the three lists of candidates
    and, of the configuration, all but the media stream. *)
Definition sameSession w w' : Prop :=
  remoteCandidatesQueue w' = remoteCandidatesQueue w /\
  localCandidatesQueue w' = localCandidatesQueue w /\
  iceCandidateList w' = iceCandidateList w /\
  mode (configuration w') = mode (configuration w) /\
  id (configuration w') = id (configuration w) /\
  mediaConstraints (configuration w') = mediaConstraints (configuration w) /\
  simulcast (configuration w') = simulcast (configuration w).

(** An executor part that keeps [sameSession]. *)
Definition keepsSession {A : Type} (m : Exec E A) : Prop :=
  forall w p, sameSession w (fst (snd (m (w, p)))).

End Events.

Arguments PeerEvent E : clear implicits.

(** ** A reference engine

    A small engine that follows the W3C state machine where the
    controller can see it: [close()] moves to [closed]; a candidate whose
    text is ["bad"] is refused (its promise will be rejected), any other
    is accepted. *)

Record RefEngine : Type := {
  ref_signalingState : RTCSignalingState;
  ref_localDescription : option RTCSessionDescriptionInit;
  ref_remoteDescription : option RTCSessionDescriptionInit;
  ref_methods : list string;
  ref_transceivers : list RTCRtpTransceiver;
  ref_accepted : list RTCIceCandidate;
  ref_refused : list RTCIceCandidate
}.

Definition ref_invoke (c : EngineCall) (e : RefEngine) : RefEngine :=
  match c with
  | Close =>
      {| ref_signalingState := closed;
         ref_localDescription := ref_localDescription e;
         ref_remoteDescription := ref_remoteDescription e;
         ref_methods := ref_methods e;
         ref_transceivers := ref_transceivers e;
         ref_accepted := ref_accepted e;
         ref_refused := ref_refused e |}
  | AddIceCandidate c =>
      {| ref_signalingState := ref_signalingState e;
         ref_localDescription := ref_localDescription e;
         ref_remoteDescription := ref_remoteDescription e;
         ref_methods := ref_methods e;
         ref_transceivers := ref_transceivers e;
         ref_accepted :=
           if String.eqb (candidate c) "bad" then ref_accepted e
           else ref_accepted e ++ [c];
         ref_refused :=
           if String.eqb (candidate c) "bad" then ref_refused e ++ [c]
           else ref_refused e |}
  | _ => e
  end.

#[export] Instance RefEngine_pc : RTCPeerConnection RefEngine := {
  signalingState := ref_signalingState;
  localDescription := ref_localDescription;
  remoteDescription := ref_remoteDescription;
  hasMethod := fun name e => existsb (String.eqb name) (ref_methods e);
  getTransceivers := ref_transceivers;
  invoke := ref_invoke
}.

(** A modern engine in state [s], without descriptions or transceivers. *)
Definition modernEngine (s : RTCSignalingState) : RefEngine :=
  {| ref_signalingState := s;
     ref_localDescription := None;
     ref_remoteDescription := None;
     ref_methods := ["addTransceiver"; "getTransceivers"];
     ref_transceivers := [];
     ref_accepted := [];
     ref_refused := [] |}.

(** An old engine, which has neither [addTransceiver] nor
    [getTransceivers]. *)
Definition legacyEngine (s : RTCSignalingState) : RefEngine :=
  {| ref_signalingState := s;
     ref_localDescription := None;
     ref_remoteDescription := None;
     ref_methods := [];
     ref_transceivers := [];
     ref_accepted := [];
     ref_refused := [] |}.

Definition config (m : Mode) (a v : bool) (s : option MediaStream)
  : WebRtcPeerConfiguration :=
  {| mediaConstraints := {| audio := a; video := v |};
     simulcast := true;
     mediaStream := s;
     mode := m;
     id := "peer" |}.

Definition cand (s : string) : RTCIceCandidate :=
  {| candidate := s; sdpMid := None; sdpMLineIndex := None |}.

(** A candidate as the engine reports it, with its media line. *)
Definition candOfLine (s : string) (line : nat) : RTCIceCandidate :=
  {| candidate := s; sdpMid := Some "0"; sdpMLineIndex := Some line |}.

Definition camera : MediaStream :=
  {| streamId := 0;
     getTracks := [ {| trackId := 0; kind := "audio" |};
                    {| trackId := 1; kind := "video" |} ] |}.

(** A peer that sends the camera and receives, before negotiation. *)
Definition offerer : WebRtcPeer RefEngine :=
  WebRtcPeer_new (config sendrecv true true (Some camera)) (modernEngine stable).

(** A peer that only receives the kinds [a] and [v] allow. *)
Definition viewer (a v : bool) : WebRtcPeer RefEngine :=
  WebRtcPeer_new (config recvonly a v None) (modernEngine stable).

(** A peer that is to send but was given no stream. *)
Definition streamless : WebRtcPeer RefEngine :=
  WebRtcPeer_new (config sendrecv true true None) (modernEngine stable).

(** A peer whose connection is closed. *)
Definition closedPeer : WebRtcPeer RefEngine :=
  WebRtcPeer_new (config sendrecv true true (Some camera)) (modernEngine closed).

(** A peer on an old engine that has just received an offer. *)
Definition legacyPeer : WebRtcPeer RefEngine :=
  WebRtcPeer_new (config sendrecv true true (Some camera))
    (legacyEngine have_remote_offer).

(** A peer that has sent its offer and waits for the answer. *)
Definition waiting : WebRtcPeer RefEngine :=
  WebRtcPeer_new (config sendrecv true true (Some camera))
    (modernEngine have_local_offer).

(** A peer in the middle of a negotiation: it has gathered a candidate
    of its own and has buffered one of the other side. *)
Definition negotiating : WebRtcPeer RefEngine :=
  onicecandidate (Some (cand "local"))
    (fst (addIceCandidate (cand "remote") waiting)).

(** The engine after the answer has been applied. *)
Definition negotiated : RefEngine :=
  {| ref_signalingState := stable;
     ref_localDescription := Some {| type := offer; sdp := "v=0 local" |};
     ref_remoteDescription := Some {| type := answer; sdp := "v=0 remote" |};
     ref_methods := ["addTransceiver"; "getTransceivers"];
     ref_transceivers := [];
     ref_accepted := [];
     ref_refused := [] |}.


(** A peer that has applied an offer for audio and video: the engine
    has made a transceiver for each kind. *)
Definition offered : RefEngine :=
  {| ref_signalingState := have_remote_offer;
     ref_localDescription := None;
     ref_remoteDescription := Some {| type := offer; sdp := "v=0 remote" |};
     ref_methods := ["addTransceiver"; "getTransceivers"];
     ref_transceivers :=
       [ {| mid := 0; receiver := {| track := {| trackId := 10; kind := "audio" |} |} |};
         {| mid := 1; receiver := {| track := {| trackId := 11; kind := "video" |} |} |} ];
     ref_accepted := [];
     ref_refused := [] |}.

Definition answerer : WebRtcPeer RefEngine :=
  WebRtcPeer_new (config sendrecv true true (Some camera)) offered.

(** An engine that remembers the ICE servers it was made with. *)
Record ConfiguredEngine : Type := {
  cfg_iceServers : list RTCIceServer;
  cfg_engine : RefEngine
}.

#[export] Instance ConfiguredEngine_pc : RTCPeerConnection ConfiguredEngine := {
  signalingState := fun e => ref_signalingState (cfg_engine e);
  localDescription := fun e => ref_localDescription (cfg_engine e);
  remoteDescription := fun e => ref_remoteDescription (cfg_engine e);
  hasMethod := fun name e =>
    existsb (String.eqb name) (ref_methods (cfg_engine e));
  getTransceivers := fun e => ref_transceivers (cfg_engine e);
  invoke := fun c e =>
    {| cfg_iceServers := cfg_iceServers e;
       cfg_engine := ref_invoke c (cfg_engine e) |}
}.

(** [new RTCPeerConnection({ iceServers })] for this engine. *)
Definition new_ConfiguredEngine (iceServers : list RTCIceServer)
  : ConfiguredEngine :=
  {| cfg_iceServers := iceServers; cfg_engine := modernEngine stable |}.

(** What a caller may write: a stream to send, the mode [sendrecv], no
    id and no ICE server. *)
Definition callerConfiguration : WebRtcPeerConfigurationInit :=
  {| init_mediaConstraints := {| audio := true; video := false |};
     init_simulcast := false;
     init_iceServers := Some [];
     init_mediaStream := Some (Some camera);
     init_mode := Some sendrecv;
     init_id := Some EmptyString |}.

Definition stunServers : list RTCIceServer :=
  [ {| urls := ["stun:stun.example.org"] |} ].

(** A day in the life of a peer that waits for an answer. *)
Definition aNegotiation : list (PeerEvent RefEngine) :=
  [ LocalCandidate (Some (candOfLine "host" 0));
    RemoteCandidate (cand "a");
    RemoteCandidate (cand "b");
    LocalCandidate (Some (cand EmptyString));
    EngineMoves negotiated;
    SignalingStateChange;
    RemoteCandidate (cand "c");
    LocalCandidate None;
    EngineMoves (modernEngine closed);
    RemoteCandidate (cand "late") ].

(** ** Properties *)

Section Properties.

Context {E : Type} `{RTCPeerConnection E}.

Implicit Types w : WebRtcPeer E.

(** *** Loops *)

Lemma forOf_pc_call {A : Type} (f : A -> EngineCall) (l : list A) w p :
  forOf l (fun x => update (pc_call (f x))) (w, p) =
  (Some tt, (fold_left (fun w x => pc_call (f x) w) l w, p)).
Proof.
  revert w. induction l as [|x l IH]; intros w; simpl.
  - reflexivity.
  - unfold bind, update at 1. simpl. apply IH.
Qed.

Lemma fold_pc_call_engineCalls {A : Type} (f : A -> EngineCall) (l : list A) w :
  engineCalls (fold_left (fun w x => pc_call (f x) w) l w) =
  engineCalls w ++ map f l.
Proof.
  revert w. induction l as [|x l IH]; intros w; simpl.
  - now rewrite app_nil_r.
  - rewrite IH. simpl. now rewrite <- app_assoc.
Qed.

Lemma drain_engineCalls w :
  engineCalls (drainIceCandidateList w) =
  engineCalls w ++ map AddIceCandidate (iceCandidateList w).
Proof.
  funelim (drainIceCandidateList w).
  - rewrite e. simpl. now rewrite app_nil_r.
  - rewrite H0. rewrite e. simpl. now rewrite <- app_assoc.
Qed.

Lemma drain_iceCandidateList w :
  iceCandidateList (drainIceCandidateList w) = [].
Proof.
  funelim (drainIceCandidateList w).
  - exact e.
  - exact H0.
Qed.

Lemma drain_queues w :
  remoteCandidatesQueue (drainIceCandidateList w) = remoteCandidatesQueue w /\
  localCandidatesQueue (drainIceCandidateList w) = localCandidatesQueue w /\
  configuration (drainIceCandidateList w) = configuration w.
Proof.
  funelim (drainIceCandidateList w).
  - auto.
  - exact H0.
Qed.

(** *** dispose *)

(** C10. [dispose()] leaves [iceCandidateList] (the buffer of pending
    remote candidates) as it was: it only clears [remoteCandidatesQueue]
    and [localCandidatesQueue]. *)
Theorem dispose_keeps_iceCandidateList w :
  iceCandidateList (dispose w) = iceCandidateList w.
Proof.
  unfold dispose. destruct (signalingState (pc w)); reflexivity.
Qed.

Lemma dispose_closed w :
  signalingState (pc w) = closed -> dispose w = w.
Proof.
  intros Hc. unfold dispose. now rewrite Hc.
Qed.

Lemma dispose_open w :
  signalingState (pc w) <> closed ->
  dispose w =
  set_localCandidatesQueue [] (set_remoteCandidatesQueue [] (pc_call Close w)).
Proof.
  intros Hc. unfold dispose.
  destruct (signalingState (pc w)); try reflexivity. now elim Hc.
Qed.

(** C9. On an engine whose [close()] moves it to [closed], [dispose()]
    is idempotent.  A first call on a peer that is not closed calls
    [close()] once and empties [localCandidatesQueue] and
    [remoteCandidatesQueue]; a call on a closed peer changes nothing; so
    a second call in succession changes nothing, [close()] is called at
    most once over the two calls, and the call always returns. *)
Theorem dispose_idempotent w :
  (forall e : E, signalingState (invoke Close e) = closed) ->
  (signalingState (pc w) <> closed ->
     engineCalls (dispose w) = engineCalls w ++ [Close] /\
     localCandidatesQueue (dispose w) = [] /\
     remoteCandidatesQueue (dispose w) = []) /\
  (signalingState (pc w) = closed -> dispose w = w) /\
  dispose (dispose w) = dispose w /\
  closeCount (dispose (dispose w)) <= closeCount w + 1.
Proof.
  intros Hclose.
  assert (Hidem : dispose (dispose w) = dispose w).
  { destruct (signalingState (pc w)) eqn:Hs;
      try (apply dispose_closed; rewrite dispose_open by congruence;
           simpl; apply Hclose).
    rewrite (dispose_closed w Hs). exact (dispose_closed w Hs). }
  split; [|split; [|split]].
  - intros Hopen. rewrite dispose_open by assumption. simpl. auto.
  - apply dispose_closed.
  - exact Hidem.
  - rewrite Hidem. unfold closeCount.
    destruct (signalingState (pc w)) eqn:Hs;
      try (rewrite dispose_open by congruence; simpl;
           rewrite filter_app, length_app; simpl; lia).
    rewrite dispose_closed by assumption. lia.
Qed.

(** *** createOffer *)

(** C7. On an engine with [addTransceiver], [createOffer()] on a peer
    whose mode is not [recvonly] and that has no media stream rejects
    with the error "<mode> direction requested, but no stream was
    configured to be sent" (the spec's ConfigurationError) and leaves the
    peer as it was: no transceiver is added and no offer is asked of the
    engine, neither now nor later. *)
Theorem createOffer_without_stream w :
  hasMethod "addTransceiver" (pc w) = true ->
  mode (configuration w) <> recvonly ->
  mediaStream (configuration w) = None ->
  fst (createOffer w) = w /\
  engineCalls (fst (createOffer w)) = engineCalls w /\
  promiseState (snd (createOffer w)) =
    Some (Rejected (JsError (String.append (Mode_toString (mode (configuration w)))
      " direction requested, but no stream was configured to be sent"))) /\
  reactions (snd (createOffer w)) = [].
Proof.
  intros Hm Hmode Hs.
  unfold createOffer, newPromise, bind, this. simpl.
  rewrite Hm, Hs.
  destruct (mode (configuration w)); try (now elim Hmode); simpl; auto.
Qed.

Lemma createOffer_engineCalls w :
  engineCalls (fst (createOffer w)) = engineCalls w ++ createOffer_calls w.
Proof.
  unfold createOffer, createOffer_calls, newPromise, bind, this. simpl.
  destruct (hasMethod "addTransceiver" (pc w)).
  - destruct (mode (configuration w)) eqn:Hmode; simpl.
    + destruct (mediaStream (configuration w)) as [ms|]; simpl.
      * rewrite (forOf_pc_call (fun t => _)). simpl.
        rewrite fold_pc_call_engineCalls, <- app_assoc.
        f_equal. f_equal. apply map_ext. intros t. unfold trackTransceiver.
        now destruct (String.eqb (kind t) "video").
      * now rewrite app_nil_r.
    + unfold mediaConstraints_get, bind, this, update, ret, pc_then. simpl.
      destruct (audio (mediaConstraints (configuration w))) eqn:Ha,
               (video (mediaConstraints (configuration w))) eqn:Hv;
        simpl; rewrite ?Ha, ?Hv; simpl;
        rewrite ?Hmode, <- ?app_assoc; reflexivity.
    + destruct (mediaStream (configuration w)) as [ms|]; simpl.
      * rewrite (forOf_pc_call (fun t => _)). simpl.
        rewrite fold_pc_call_engineCalls, <- app_assoc.
        f_equal. f_equal. apply map_ext. intros t. unfold trackTransceiver.
        now destruct (String.eqb (kind t) "video").
      * now rewrite app_nil_r.
  - destruct (mediaStream (configuration w)) as [ms|]; simpl.
    + rewrite (forOf_pc_call (fun t => _)). simpl.
      now rewrite fold_pc_call_engineCalls, <- app_assoc.
    + reflexivity.
Qed.

(** C8. On an engine with [addTransceiver], [createOffer()] in mode
    [recvonly] adds one receive-only transceiver for audio if
    [mediaConstraints.audio] holds and one for video if
    [mediaConstraints.video] holds, in this order and no other, each
    bound to a stream created for it ([nextStreamId] is the first
    identity not yet in use) that has no tracks; then it asks the engine
    for an offer. *)
Theorem createOffer_recvonly w :
  hasMethod "addTransceiver" (pc w) = true ->
  mode (configuration w) = recvonly ->
  let mc := mediaConstraints (configuration w) in
  let n := nextStreamId w in
  engineCalls (fst (createOffer w)) =
    engineCalls w
    ++ (if audio mc then [recvonlyTransceiver "audio" n] else [])
    ++ (if video mc
        then [recvonlyTransceiver "video" (if audio mc then S n else n)]
        else [])
    ++ [CreateOffer None].
Proof.
  intros Hm Hmode mc n. subst mc n.
  rewrite createOffer_engineCalls. unfold createOffer_calls.
  now rewrite Hm, Hmode.
Qed.

(** C6, as amended.  Whatever the engine and the mode, and so also when
    [simulcast = true]: a transceiver [createOffer] adds for a video
    track carries exactly the three encodings r0/700000/16, r1/800000/8,
    r2/900000/1, in this order; one it adds for any other track, or for
    a kind, carries none.  On an engine with [addTransceiver], in a mode
    other than [recvonly], it adds one such transceiver for every track
    of the stream, in order, so that there the table is attached to
    every video track the peer sends.  (On an engine without
    [addTransceiver] the tracks are sent by [addTrack], without
    encodings.) *)
Theorem createOffer_simulcast_encodings w :
  simulcast (configuration w) = true ->
  exists added : list EngineCall,
    engineCalls (fst (createOffer w)) = engineCalls w ++ added /\
    (forall t init, In (AddTransceiverTrack t init) added ->
       (kind t = "video" ->
        sendEncodings init =
          Some [ {| rid := "r0"; maxBitrate := 700000;
                    scaleResolutionDownBy := 16 |};
                 {| rid := "r1"; maxBitrate := 800000;
                    scaleResolutionDownBy := 8 |};
                 {| rid := "r2"; maxBitrate := 900000;
                    scaleResolutionDownBy := 1 |} ]) /\
       (kind t <> "video" -> sendEncodings init = None)) /\
    (forall k init, In (AddTransceiverKind k init) added ->
       sendEncodings init = None) /\
    (hasMethod "addTransceiver" (pc w) = true ->
     mode (configuration w) <> recvonly ->
     forall ms, mediaStream (configuration w) = Some ms ->
     added =
       map (trackTransceiver (mode (configuration w)) ms) (getTracks ms)
       ++ [CreateOffer None]).
Proof.
  intros _. exists (createOffer_calls w).
  split; [apply createOffer_engineCalls|].
  assert (Htrack : forall m ms t init,
    In (AddTransceiverTrack t init)
       (map (trackTransceiver m ms) (getTracks ms) ++ [CreateOffer None]) ->
    (kind t = "video" -> sendEncodings init = Some simulcastVideoEncodings) /\
    (kind t <> "video" -> sendEncodings init = None)).
  { intros m ms t init Hin. apply in_app_or in Hin.
    destruct Hin as [Hin|[Hin|[]]]; [|discriminate].
    apply in_map_iff in Hin. destruct Hin as [t' [Heq _]].
    unfold trackTransceiver in Heq. injection Heq as -> <-. simpl. split.
    - intros ->. reflexivity.
    - intros Hk. destruct (String.eqb_spec (kind t) "video"); congruence. }
  assert (Hkind : forall m ms k init,
    In (AddTransceiverKind k init)
       (map (trackTransceiver m ms) (getTracks ms) ++ [CreateOffer None]) ->
    sendEncodings init = None).
  { intros m ms k init Hin. apply in_app_or in Hin.
    destruct Hin as [Hin|[Hin|[]]]; [|discriminate].
    apply in_map_iff in Hin. destruct Hin as [t' [Heq _]]. discriminate. }
  assert (Hlegacy : forall ms (l : list MediaStreamTrack) o c,
    In c (map (fun t => AddTrack t ms) l ++ [CreateOffer o]) ->
    (exists t, c = AddTrack t ms) \/ c = CreateOffer o).
  { intros ms l o c Hin. apply in_app_or in Hin.
    destruct Hin as [Hin|[Hin|[]]]; [left|right; auto].
    apply in_map_iff in Hin. destruct Hin as [t' [Heq _]]. eauto. }
  unfold createOffer_calls.
  destruct (hasMethod "addTransceiver" (pc w)).
  - destruct (mode (configuration w)) eqn:Hmode.
    + destruct (mediaStream (configuration w)) as [ms|].
      * split; [|split]; eauto. intros _ _ ms' [= <-]. reflexivity.
      * split; [|split].
        -- intros t init [].
        -- intros k init [].
        -- intros _ _ ms' [=].
    + split; [|split].
      * intros t init Hin.
        destruct (audio _), (video _); simpl in Hin;
          repeat destruct Hin as [Hin|Hin]; try discriminate; destruct Hin.
      * intros k init Hin.
        destruct (audio _), (video _); simpl in Hin;
          repeat destruct Hin as [Hin|Hin]; try discriminate;
          try (injection Hin as _ <-; reflexivity); destruct Hin.
      * intros _ Hne. now elim Hne.
    + destruct (mediaStream (configuration w)) as [ms|].
      * split; [|split]; eauto. intros _ _ ms' [= <-]. reflexivity.
      * split; [|split].
        -- intros t init [].
        -- intros k init [].
        -- intros _ _ ms' [=].
  - split; [|split]; try discriminate.
    + intros t init Hin. exfalso.
      destruct (mediaStream (configuration w)) as [ms|].
      * apply Hlegacy in Hin; auto. destruct Hin as [[? ?]|?]; discriminate.
      * simpl in Hin. destruct Hin as [?|[]]; discriminate.
    + intros k init Hin. exfalso.
      destruct (mediaStream (configuration w)) as [ms|].
      * apply Hlegacy in Hin; auto. destruct Hin as [[? ?]|?]; discriminate.
      * simpl in Hin. destruct Hin as [?|[]]; discriminate.
Qed.

(** *** addIceCandidate and the flush of the buffer *)

Lemma addIceCandidate_closed w c :
  signalingState (pc w) = closed ->
  addIceCandidate c w =
  (set_remoteCandidatesQueue (push c (remoteCandidatesQueue w)) w,
   {| settleCalls := [Rejected (JsError "PeerConnection object is closed")];
      reactions := [] |}).
Proof.
  intros Hs. unfold addIceCandidate, newPromise, bind, this, update. simpl.
  now rewrite Hs.
Qed.

Lemma addIceCandidate_applies w c :
  signalingState (pc w) = stable ->
  remoteDescription (pc w) <> None ->
  addIceCandidate c w =
  (pc_call (AddIceCandidate c)
     (set_remoteCandidatesQueue (push c (remoteCandidatesQueue w)) w),
   {| settleCalls := []; reactions := [(AddIceCandidate c, ThenResolve)] |}).
Proof.
  intros Hs Hr. unfold addIceCandidate, newPromise, bind, this, update. simpl.
  rewrite Hs. destruct (remoteDescription (pc w)); [reflexivity | now elim Hr].
Qed.

Lemma addIceCandidate_buffers w c :
  signalingState (pc w) <> closed ->
  (signalingState (pc w) = stable -> remoteDescription (pc w) = None) ->
  addIceCandidate c w =
  (set_iceCandidateList (push c (iceCandidateList w))
     (set_remoteCandidatesQueue (push c (remoteCandidatesQueue w)) w),
   {| settleCalls := [Fulfilled JsUndefined]; reactions := [] |}).
Proof.
  intros Hc Hr. unfold addIceCandidate, newPromise, bind, this, update. simpl.
  destruct (signalingState (pc w)); try reflexivity.
  - now rewrite Hr.
  - now elim Hc.
Qed.

(** C5. [addIceCandidate(c)] always appends [c] to
    [remoteCandidatesQueue].  On a closed connection it rejects with the
    error "PeerConnection object is closed" (the spec's StateError) and
    does nothing else.  On a stable connection with a remote description
    it hands [c] to the engine at once and settles as the engine does:
    it resolves when the engine accepts [c] and rejects with the
    engine's error when the engine refuses it.  In every other case it
    appends [c] to [iceCandidateList] and resolves. *)
Theorem addIceCandidate_cases w c :
  remoteCandidatesQueue (fst (addIceCandidate c w)) =
    remoteCandidatesQueue w ++ [c] /\
  (signalingState (pc w) = closed ->
     promiseState (snd (addIceCandidate c w)) =
       Some (Rejected (JsError "PeerConnection object is closed")) /\
     reactions (snd (addIceCandidate c w)) = [] /\
     engineCalls (fst (addIceCandidate c w)) = engineCalls w /\
     iceCandidateList (fst (addIceCandidate c w)) = iceCandidateList w) /\
  (signalingState (pc w) = stable -> remoteDescription (pc w) <> None ->
     engineCalls (fst (addIceCandidate c w)) =
       engineCalls w ++ [AddIceCandidate c] /\
     iceCandidateList (fst (addIceCandidate c w)) = iceCandidateList w /\
     promiseState (snd (addIceCandidate c w)) = None /\
     reactions (snd (addIceCandidate c w)) = [(AddIceCandidate c, ThenResolve)] /\
     (forall w2 v,
        option_map promiseState
          (deliver 0 (Fulfilled v) w2 (snd (addIceCandidate c w))) =
        Some (Some (Fulfilled JsUndefined))) /\
     (forall w2 error,
        option_map promiseState
          (deliver 0 (Rejected error) w2 (snd (addIceCandidate c w))) =
        Some (Some (Rejected error)))) /\
  (signalingState (pc w) <> closed ->
   (signalingState (pc w) = stable -> remoteDescription (pc w) = None) ->
     iceCandidateList (fst (addIceCandidate c w)) = iceCandidateList w ++ [c] /\
     promiseState (snd (addIceCandidate c w)) = Some (Fulfilled JsUndefined) /\
     reactions (snd (addIceCandidate c w)) = [] /\
     engineCalls (fst (addIceCandidate c w)) = engineCalls w).
Proof.
  split; [|split; [|split]].
  - unfold addIceCandidate, newPromise, bind, this, update. simpl.
    destruct (signalingState (pc w)); try reflexivity.
    destruct (remoteDescription (pc w)); reflexivity.
  - intros Hs. rewrite addIceCandidate_closed by assumption. simpl. auto.
  - intros Hs Hr. rewrite addIceCandidate_applies by assumption. simpl.
    repeat split; reflexivity.
  - intros Hc Hr. rewrite addIceCandidate_buffers by assumption. simpl. auto.
Qed.

Lemma arrive_not_stable e c w :
  signalingState e <> stable ->
  iceCandidateList (arrive (e, c) w) =
    iceCandidateList w ++ notRefused [(e, c)] /\
  engineCalls (arrive (e, c) w) = engineCalls w.
Proof.
  intros Hs. unfold arrive, onsignalingstatechange, notRefused. simpl.
  destruct (signalingState e) eqn:He; try (now elim Hs);
    try (rewrite addIceCandidate_buffers by (simpl; rewrite He; congruence);
         simpl; split; reflexivity).
  rewrite addIceCandidate_closed by assumption. simpl.
  now rewrite app_nil_r.
Qed.

Lemma arrivals_not_stable l w :
  Forall (fun ec => signalingState (fst ec) <> stable) l ->
  iceCandidateList (arrivals l w) = iceCandidateList w ++ notRefused l /\
  engineCalls (arrivals l w) = engineCalls w.
Proof.
  intros Hl. revert w. induction Hl as [|[e c] l Hec Hl IH]; intros w.
  - simpl. now rewrite app_nil_r.
  - simpl. destruct (IH (arrive (e, c) w)) as [IH1 IH2].
    destruct (arrive_not_stable e c w Hec) as [A1 A2].
    unfold arrivals in *. rewrite IH1, IH2, A1, A2. split; [|reflexivity].
    rewrite <- app_assoc. f_equal. unfold notRefused. simpl.
    destruct (isClosed (signalingState e)); reflexivity.
Qed.

Lemma notRefused_all l :
  Forall (fun ec => signalingState (fst ec) <> closed) l ->
  notRefused l = map snd l.
Proof.
  unfold notRefused. induction 1 as [|[e c] l Hec Hl IH]; simpl.
  - reflexivity.
  - simpl in Hec. destruct (signalingState e); simpl; try (now elim Hec);
      now rewrite IH.
Qed.

(** C3. Candidates arrive, one after the other, while the engine is in
    states other than [stable]; the buffer then holds what it held
    before, followed by the arrived candidates in the order of arrival
    (all but those that came on a closed connection, which
    [addIceCandidate] refuses).  When the engine then reports [stable],
    the listener hands every buffered candidate to the engine, in that
    same order, and leaves the buffer empty.  This holds for every
    engine: the listener drops the promise each [addIceCandidate] of the
    engine returns, so a candidate the engine refuses does not keep the
    following ones from being handed over. *)
Theorem flush_in_arrival_order w (l : list (E * RTCIceCandidate)) (e : E) :
  Forall (fun ec => signalingState (fst ec) <> stable) l ->
  signalingState e = stable ->
  let buffered := iceCandidateList (arrivals l w) in
  let flushed := onsignalingstatechange (set_pc e (arrivals l w)) in
  buffered = iceCandidateList w ++ notRefused l /\
  (Forall (fun ec => signalingState (fst ec) <> closed) l ->
   buffered = iceCandidateList w ++ map snd l) /\
  engineCalls flushed = engineCalls w ++ map AddIceCandidate buffered /\
  iceCandidateList flushed = [].
Proof.
  intros Hl He buffered flushed. subst buffered flushed.
  destruct (arrivals_not_stable l w Hl) as [A1 A2].
  unfold onsignalingstatechange. simpl. rewrite He.
  split; [exact A1|]. split.
  - intros Hopen. rewrite A1. now rewrite notRefused_all.
  - rewrite drain_engineCalls, drain_iceCandidateList. simpl.
    now rewrite A2.
Qed.

(** *** Settling *)

Lemma settle_first s s' p :
  promiseState p = Some s -> promiseState (settle s' p) = Some s.
Proof.
  unfold promiseState, settle. simpl.
  destruct (settleCalls p); [discriminate | auto].
Qed.

Lemma settle_settles s p : promiseState (settle s p) <> None.
Proof.
  unfold promiseState, settle. simpl.
  destruct (settleCalls p); discriminate.
Qed.

(** Whatever handlers were attached, they settle the promise when the
    engine settles its own. *)
Lemma deliver_settles i o w p p' :
  deliver i o w p = Some p' -> promiseState p' <> None.
Proof.
  unfold deliver. destruct (nth_error (reactions p) i) as [[c h]|];
    [|discriminate].
  intros [= <-]. unfold runHandlers.
  destruct o; [destruct h; [| |destruct (localDescription (pc w))]|];
    apply settle_settles.
Qed.

(** A promise that waits for nothing stays as it is. *)
Lemma future_no_reactions p q :
  reactions p = [] -> future p q -> q = p.
Proof.
  intros Hr Hf. destruct Hf as [p|p i o w p' q Hd _]; [reflexivity|].
  unfold deliver in Hd. rewrite Hr in Hd. destruct i; discriminate.
Qed.

(** C2, the failing case.  On an engine without [getTransceivers],
    [createAnswer()] calls neither [resolve] nor [reject], calls nothing
    on the engine and attaches no handler: the promise it returns is
    pending and stays so for ever. *)
Theorem createAnswer_legacy_never_settles w :
  hasMethod "getTransceivers" (pc w) = false ->
  createAnswer w = (w, pendingPromise) /\
  settleCalls (snd (createAnswer w)) = [] /\
  forall q, future (snd (createAnswer w)) q -> promiseState q = None.
Proof.
  intros Hm.
  assert (Heq : createAnswer w = (w, pendingPromise)).
  { unfold createAnswer, newPromise, bind, this. simpl. now rewrite Hm. }
  rewrite Heq. simpl. repeat split.
  intros q Hf. apply future_no_reactions in Hf; [|reflexivity].
  now subst q.
Qed.

(** On an engine with [getTransceivers], [createAnswer()] does ask the
    engine for an answer and waits for it. *)
Lemma createAnswer_modern_waits w :
  hasMethod "getTransceivers" (pc w) = true ->
  exists rs, reactions (snd (createAnswer w)) = rs ++ [(CreateAnswer, ThenResolveWith)].
Proof.
  intros Hm. exists [].
  unfold createAnswer, newPromise, bind, this. simpl. rewrite Hm.
  unfold mediaConstraints_get, bind, this, update, ret, reject, pc_then. simpl.
  destruct (audio (mediaConstraints (configuration w))) eqn:Ha; simpl.
  - destruct (find _ (getTransceivers (pc w))); simpl; rewrite ?Ha; simpl;
      destruct (video (mediaConstraints (configuration w))); simpl;
      try reflexivity; destruct (find _ _); reflexivity.
  - destruct (video (mediaConstraints (configuration w))); simpl;
      try reflexivity; destruct (find _ _); reflexivity.
Qed.

(** Apart from [createAnswer] on an old engine, the promise every
    operation returns is settled at once or waits for the engine. *)
Lemma pc_then_willSettle c h (p : Promise) : willSettle (attach c h p).
Proof.
  right. unfold attach. simpl. destruct (reactions p); discriminate.
Qed.

Lemma createAnswer_modern_willSettle w :
  hasMethod "getTransceivers" (pc w) = true ->
  willSettle (snd (createAnswer w)).
Proof.
  intros Hm. destruct (createAnswer_modern_waits w Hm) as [rs Hrs].
  right. rewrite Hrs. destruct rs; discriminate.
Qed.

Lemma createOffer_willSettle w : willSettle (snd (createOffer w)).
Proof.
  unfold createOffer, newPromise, bind, this. simpl.
  destruct (hasMethod "addTransceiver" (pc w)).
  - destruct (mode (configuration w)) eqn:Hmode; simpl.
    + destruct (mediaStream (configuration w)) as [ms|]; simpl.
      * rewrite (forOf_pc_call (fun t => _)). simpl. apply pc_then_willSettle.
      * left. discriminate.
    + unfold mediaConstraints_get, bind, this, update, ret, pc_then. simpl.
      destruct (audio (mediaConstraints (configuration w))) eqn:Ha,
               (video (mediaConstraints (configuration w))) eqn:Hv;
        simpl; rewrite ?Ha, ?Hv; simpl; apply pc_then_willSettle.
    + destruct (mediaStream (configuration w)) as [ms|]; simpl.
      * rewrite (forOf_pc_call (fun t => _)). simpl. apply pc_then_willSettle.
      * left. discriminate.
  - destruct (mediaStream (configuration w)) as [ms|]; simpl.
    + rewrite (forOf_pc_call (fun t => _)). simpl. apply pc_then_willSettle.
    + apply pc_then_willSettle.
Qed.

Lemma processLocalOffer_willSettle w d :
  willSettle (snd (processLocalOffer d w)).
Proof. right. discriminate. Qed.

Lemma processLocalAnswer_willSettle w d :
  willSettle (snd (processLocalAnswer d w)).
Proof.
  unfold processLocalAnswer, newPromise, bind, this. simpl.
  destruct (signalingState (pc w)); simpl; apply pc_then_willSettle.
Qed.

Lemma processRemoteOffer_willSettle w (sdp0 : string) :
  willSettle (snd (processRemoteOffer sdp0 w)).
Proof.
  unfold processRemoteOffer, setRemoteDescription, newPromise, bind, this.
  simpl. destruct (signalingState (pc w)); simpl; apply pc_then_willSettle.
Qed.

Lemma processRemoteAnswer_willSettle w (sdp0 : string) :
  willSettle (snd (processRemoteAnswer sdp0 w)).
Proof.
  unfold processRemoteAnswer, setRemoteDescription, newPromise, bind, this.
  simpl. destruct (signalingState (pc w)); simpl; apply pc_then_willSettle.
Qed.

Lemma addIceCandidate_willSettle w c :
  willSettle (snd (addIceCandidate c w)).
Proof.
  unfold addIceCandidate, newPromise, bind, this, update. simpl.
  destruct (signalingState (pc w)); simpl;
    try (left; discriminate).
  destruct (remoteDescription (pc w)); simpl.
  - apply pc_then_willSettle.
  - left. discriminate.
Qed.

(** *** The remote descriptions *)

(** C1, the failing case.  [processRemoteOffer] and
    [processRemoteAnswer] on a closed connection do reject with
    "RTCPeerConnection is closed when trying to set remote description",
    but [reject] does not end the executor: it goes on and calls
    [setRemoteDescription] of the engine with the tagged description. *)
Theorem processRemote_closed_still_applies w (sdp0 : string) :
  signalingState (pc w) = closed ->
  (promiseState (snd (processRemoteOffer sdp0 w)) =
     Some (Rejected (JsString
       "RTCPeerConnection is closed when trying to set remote description")) /\
   engineCalls (fst (processRemoteOffer sdp0 w)) =
     engineCalls w ++ [SetRemoteDescription {| type := offer; sdp := sdp0 |}]) /\
  (promiseState (snd (processRemoteAnswer sdp0 w)) =
     Some (Rejected (JsString
       "RTCPeerConnection is closed when trying to set remote description")) /\
   engineCalls (fst (processRemoteAnswer sdp0 w)) =
     engineCalls w ++ [SetRemoteDescription {| type := answer; sdp := sdp0 |}]).
Proof.
  intros Hs.
  unfold processRemoteOffer, processRemoteAnswer, setRemoteDescription,
    newPromise, bind, this.
  simpl. rewrite Hs. simpl. auto.
Qed.

(** On a connection that is not closed the two operations tag the text
    and hand it to the engine, and settle as the engine does. *)
Lemma processRemoteOffer_open w (sdp0 : string) :
  signalingState (pc w) <> closed ->
  processRemoteOffer sdp0 w =
  (pc_call (SetRemoteDescription {| type := offer; sdp := sdp0 |}) w,
   {| settleCalls := [];
      reactions := [(SetRemoteDescription {| type := offer; sdp := sdp0 |},
                     ThenResolve)] |}).
Proof.
  intros Hs.
  unfold processRemoteOffer, setRemoteDescription, newPromise, bind, this.
  simpl. destruct (signalingState (pc w)); try reflexivity. now elim Hs.
Qed.

(** *** The local descriptions *)

(** [processLocalOffer] looks at [localDescription] once the engine has
    applied the offer. *)
Lemma processLocalOffer_checks w offer0 w2 v :
  exists p',
    deliver 0 (Fulfilled v) w2 (snd (processLocalOffer offer0 w)) = Some p' /\
    promiseState p' =
      match localDescription (pc w2) with
      | Some _ => Some (Fulfilled JsUndefined)
      | None => Some (Rejected (JsString "Local description is not defined"))
      end.
Proof.
  unfold processLocalOffer, newPromise, deliver. simpl.
  eexists. split; [reflexivity|].
  destruct (localDescription (pc w2)); reflexivity.
Qed.

(** C4, the failing case.  [processLocalAnswer] hands the answer to the
    engine, and when the engine has applied it the operation resolves
    without looking at [localDescription]: it resolves also when the
    engine reports no local description. *)
Theorem processLocalAnswer_does_not_check w answer0 :
  signalingState (pc w) <> closed ->
  engineCalls (fst (processLocalAnswer answer0 w)) =
    engineCalls w ++ [SetLocalDescription answer0] /\
  promiseState (snd (processLocalAnswer answer0 w)) = None /\
  forall w2 v,
    localDescription (pc w2) = None ->
    exists p',
      deliver 0 (Fulfilled v) w2 (snd (processLocalAnswer answer0 w)) = Some p' /\
      promiseState p' = Some (Fulfilled JsUndefined).
Proof.
  intros Hs.
  assert (Heq : processLocalAnswer answer0 w =
    (pc_call (SetLocalDescription answer0) w,
     {| settleCalls := [];
        reactions := [(SetLocalDescription answer0, ThenResolve)] |})).
  { unfold processLocalAnswer, newPromise, bind, this. simpl.
    destruct (signalingState (pc w)); try reflexivity. now elim Hs. }
  rewrite Heq. simpl. repeat split.
  intros w2 v _. eexists. split; reflexivity.
Qed.

End Properties.

(** ** The theorems at work on the reference engine *)

Lemma processRemote_closed_still_applies_witness :
  signalingState (pc closedPeer) = closed /\
  promiseState (snd (processRemoteOffer "v=0" closedPeer)) =
    Some (Rejected (JsString
      "RTCPeerConnection is closed when trying to set remote description")) /\
  engineCalls (fst (processRemoteOffer "v=0" closedPeer)) =
    [SetRemoteDescription {| type := offer; sdp := "v=0" |}] /\
  engineCalls (fst (processRemoteAnswer "v=0" closedPeer)) =
    [SetRemoteDescription {| type := answer; sdp := "v=0" |}].
Proof.
  assert (Hs : signalingState (pc closedPeer) = closed) by reflexivity.
  destruct (processRemote_closed_still_applies closedPeer "v=0" Hs)
    as [[Hp Ho] [_ Ha]].
  split; [reflexivity|]. split; [exact Hp|]. split; [exact Ho | exact Ha].
Defined.

Lemma createAnswer_legacy_never_settles_witness :
  hasMethod "getTransceivers" (pc legacyPeer) = false /\
  createAnswer legacyPeer = (legacyPeer, pendingPromise) /\
  promiseState (snd (createAnswer legacyPeer)) = None.
Proof.
  assert (Hm : hasMethod "getTransceivers" (pc legacyPeer) = false)
    by reflexivity.
  destruct (createAnswer_legacy_never_settles legacyPeer Hm)
    as [Heq [_ Hnever]].
  split; [reflexivity|]. split; [exact Heq|].
  apply Hnever. apply future_now.
Defined.

Lemma flush_in_arrival_order_witness :
  let l := [ (modernEngine have_local_offer, cand "a");
             (modernEngine have_local_offer, cand "bad");
             (modernEngine have_local_offer, cand "c") ] in
  let flushed := onsignalingstatechange (set_pc negotiated (arrivals l waiting)) in
  Forall (fun ec => signalingState (fst ec) <> stable) l /\
  signalingState negotiated = stable /\
  iceCandidateList (arrivals l waiting) = [cand "a"; cand "bad"; cand "c"] /\
  engineCalls flushed =
    [AddIceCandidate (cand "a"); AddIceCandidate (cand "bad");
     AddIceCandidate (cand "c")] /\
  iceCandidateList flushed = [].
Proof.
  intros l flushed.
  assert (Hl : Forall (fun ec => signalingState (fst ec) <> stable) l)
    by (repeat constructor; discriminate).
  assert (Hs : signalingState negotiated = stable) by reflexivity.
  destruct (flush_in_arrival_order waiting l negotiated Hl Hs)
    as [Hb [_ [Hc He]]].
  split; [exact Hl|]. split; [reflexivity|].
  split; [exact Hb|]. split; [exact Hc | exact He].
Defined.

Lemma processLocalAnswer_does_not_check_witness :
  let rolledBack := set_pc (modernEngine stable) waiting in
  signalingState (pc waiting) <> closed /\
  localDescription (pc rolledBack) = None /\
  exists p',
    deliver 0 (Fulfilled JsUndefined) rolledBack
      (snd (processLocalAnswer {| type := rollback; sdp := "" |} waiting))
    = Some p' /\
    promiseState p' = Some (Fulfilled JsUndefined).
Proof.
  intros rolledBack.
  assert (Hs : signalingState (pc waiting) <> closed) by discriminate.
  destruct (processLocalAnswer_does_not_check waiting
              {| type := rollback; sdp := "" |} Hs) as [_ [_ Hd]].
  assert (Hn : localDescription (pc rolledBack) = None) by reflexivity.
  split; [exact Hs|]. split; [exact Hn|].
  exact (Hd rolledBack JsUndefined Hn).
Defined.

Lemma addIceCandidate_cases_witness :
  signalingState (pc closedPeer) = closed /\
  remoteCandidatesQueue (fst (addIceCandidate (cand "a") closedPeer)) =
    [cand "a"] /\
  promiseState (snd (addIceCandidate (cand "a") closedPeer)) =
    Some (Rejected (JsError "PeerConnection object is closed")) /\
  iceCandidateList (fst (addIceCandidate (cand "a") closedPeer)) = [].
Proof.
  destruct (addIceCandidate_cases closedPeer (cand "a")) as [Hq [Hc _]].
  assert (Hs : signalingState (pc closedPeer) = closed) by reflexivity.
  destruct (Hc Hs) as [Hp [_ [_ Hl]]].
  split; [reflexivity|]. split; [exact Hq|]. split; [exact Hp | exact Hl].
Defined.

Lemma createOffer_simulcast_encodings_witness :
  simulcast (configuration offerer) = true /\
  engineCalls (fst (createOffer offerer)) =
    [ AddTransceiverTrack {| trackId := 0; kind := "audio" |}
        {| direction := sendrecv; streams := [camera]; sendEncodings := None |};
      AddTransceiverTrack {| trackId := 1; kind := "video" |}
        {| direction := sendrecv; streams := [camera];
           sendEncodings :=
             Some [ {| rid := "r0"; maxBitrate := 700000;
                       scaleResolutionDownBy := 16 |};
                    {| rid := "r1"; maxBitrate := 800000;
                       scaleResolutionDownBy := 8 |};
                    {| rid := "r2"; maxBitrate := 900000;
                       scaleResolutionDownBy := 1 |} ] |};
      CreateOffer None ].
Proof.
  assert (Hsim : simulcast (configuration offerer) = true) by reflexivity.
  destruct (createOffer_simulcast_encodings offerer Hsim)
    as [added [Hcalls [_ [_ Hexact]]]].
  split; [exact Hsim|].
  assert (Hm : hasMethod "addTransceiver" (pc offerer) = true) by reflexivity.
  assert (Hmode : mode (configuration offerer) <> recvonly) by discriminate.
  assert (Hms : mediaStream (configuration offerer) = Some camera)
    by reflexivity.
  rewrite Hcalls, (Hexact Hm Hmode camera Hms). reflexivity.
Defined.

(** C6 as the spec states it fails on an engine without
    [addTransceiver]: with [simulcast = true] the peer sends the video
    track of the camera by [addTrack], and no transceiver, hence no
    table of encodings, is attached to it. *)
Lemma createOffer_legacy_video_without_table :
  simulcast (configuration legacyPeer) = true /\
  engineCalls (fst (createOffer legacyPeer)) =
    [ AddTrack {| trackId := 0; kind := "audio" |} camera;
      AddTrack {| trackId := 1; kind := "video" |} camera;
      CreateOffer (Some {| offerToReceiveAudio := true;
                           offerToReceiveVideo := true |}) ] /\
  ~ everyVideoTrackCarriesTable legacyPeer.
Proof.
  split; [reflexivity|]. split; [reflexivity|].
  intros Hall.
  assert (Hmode : mode (configuration legacyPeer) <> recvonly) by discriminate.
  destruct (Hall Hmode camera {| trackId := 1; kind := "video" |} eq_refl)
    as [init [Hin _]].
  - right. left. reflexivity.
  - reflexivity.
  - vm_compute in Hin. destruct Hin as [Hin|[Hin|[Hin|[]]]]; discriminate.
Qed.

Lemma createOffer_without_stream_witness :
  hasMethod "addTransceiver" (pc streamless) = true /\
  mode (configuration streamless) <> recvonly /\
  mediaStream (configuration streamless) = None /\
  fst (createOffer streamless) = streamless /\
  promiseState (snd (createOffer streamless)) =
    Some (Rejected (JsError
      "sendrecv direction requested, but no stream was configured to be sent")).
Proof.
  assert (Hmode : mode (configuration streamless) <> recvonly) by discriminate.
  assert (Hm : hasMethod "addTransceiver" (pc streamless) = true)
    by reflexivity.
  assert (Hms : mediaStream (configuration streamless) = None) by reflexivity.
  destruct (createOffer_without_stream streamless Hm Hmode Hms)
    as [Hw [_ [Hp _]]].
  split; [reflexivity|]. split; [exact Hmode|]. split; [reflexivity|].
  split; [exact Hw | exact Hp].
Defined.

Lemma createOffer_recvonly_witness :
  hasMethod "addTransceiver" (pc (viewer true false)) = true /\
  mode (configuration (viewer true false)) = recvonly /\
  engineCalls (fst (createOffer (viewer true false))) =
    [ AddTransceiverKind "audio"
        {| direction := recvonly;
           streams := [ {| streamId := 0; getTracks := [] |} ];
           sendEncodings := None |};
      CreateOffer None ].
Proof.
  assert (Hm : hasMethod "addTransceiver" (pc (viewer true false)) = true)
    by reflexivity.
  assert (Hmode : mode (configuration (viewer true false)) = recvonly)
    by reflexivity.
  split; [exact Hm|]. split; [exact Hmode|].
  exact (createOffer_recvonly (viewer true false) Hm Hmode).
Defined.

Lemma dispose_idempotent_witness :
  (forall e : RefEngine, signalingState (invoke Close e) = closed) /\
  signalingState (pc negotiating) <> closed /\
  localCandidatesQueue negotiating = [cand "local"] /\
  remoteCandidatesQueue negotiating = [cand "remote"] /\
  engineCalls (dispose negotiating) = [Close] /\
  localCandidatesQueue (dispose negotiating) = [] /\
  remoteCandidatesQueue (dispose negotiating) = [] /\
  dispose (dispose negotiating) = dispose negotiating /\
  closeCount (dispose (dispose negotiating)) <= 1.
Proof.
  assert (Hclose : forall e : RefEngine, signalingState (invoke Close e) = closed)
    by (intros e; reflexivity).
  destruct (dispose_idempotent negotiating Hclose)
    as [Hfirst [_ [Hidem Hcount]]].
  assert (Hopen : signalingState (pc negotiating) <> closed) by discriminate.
  destruct (Hfirst Hopen) as [Hcalls [Hlocal Hremote]].
  split; [exact Hclose|]. split; [exact Hopen|].
  split; [reflexivity|]. split; [reflexivity|].
  split; [exact Hcalls|]. split; [exact Hlocal|]. split; [exact Hremote|].
  split; [exact Hidem | exact Hcount].
Defined.

(** Disposal keeps the candidate that was buffered. *)
Example dispose_keeps_buffered_candidate :
  iceCandidateList (dispose negotiating) = [cand "remote"].
Proof. reflexivity. Qed.

(** The second scenario of the spec: a viewer of audio and video gets two
    receive-only transceivers, each on a stream of its own. *)
Example createOffer_viewer_both :
  engineCalls (fst (createOffer (viewer true true))) =
    [ recvonlyTransceiver "audio" 0; recvonlyTransceiver "video" 1;
      CreateOffer None ].
Proof. reflexivity. Qed.

(** The engine refused ["bad"] and still got the candidate after it. *)
Example flush_goes_on_after_refusal :
  let flushed :=
    onsignalingstatechange
      (set_pc negotiated
         (set_iceCandidateList [cand "a"; cand "bad"; cand "c"] waiting)) in
  ref_refused (pc flushed) = [cand "bad"] /\
  ref_accepted (pc flushed) = [cand "a"; cand "c"] /\
  iceCandidateList flushed = [].
Proof. vm_compute. auto. Qed.

(** On a modern engine that made no transceiver for a wanted kind,
    [createAnswer] calls [reject] and still asks for an answer. *)
Example createAnswer_missing_transceiver :
  settleCalls (snd (createAnswer offerer)) =
    [ Rejected (JsError
        "audio requested, but no transceiver was created from remote description");
      Rejected (JsError
        "video requested, but no transceiver was created from remote description") ] /\
  engineCalls (fst (createAnswer offerer)) = [CreateAnswer].
Proof. vm_compute. auto. Qed.

(** ** Further properties of the code *)

Section Candidates.

Context {E : Type} `{RTCPeerConnection E}.

Implicit Types w : WebRtcPeer E.
Implicit Types ev : PeerEvent E.
Implicit Types evs : list (PeerEvent E).

Lemma drain_nothing w :
  iceCandidateList w = [] -> drainIceCandidateList w = w.
Proof.
  funelim (drainIceCandidateList w); intros Hnil.
  - reflexivity.
  - congruence.
Qed.

Lemma drain_pc_free w :
  localCandidatesQueue (drainIceCandidateList w) = localCandidatesQueue w /\
  nextStreamId (drainIceCandidateList w) = nextStreamId w.
Proof.
  funelim (drainIceCandidateList w).
  - auto.
  - match goal with IH : _ /\ _ |- _ => destruct IH as [-> ->] end.
    simpl. auto.
Qed.

Lemma addIceCandidate_queues w c :
  remoteCandidatesQueue (fst (addIceCandidate c w)) =
    remoteCandidatesQueue w ++ [c] /\
  localCandidatesQueue (fst (addIceCandidate c w)) = localCandidatesQueue w.
Proof.
  unfold addIceCandidate, newPromise, bind, this, update. simpl.
  destruct (signalingState (pc w)); try (split; reflexivity).
  destruct (remoteDescription (pc w)); split; reflexivity.
Qed.

Lemma remoteCandidates_cons ev evs :
  remoteCandidates (ev :: evs) = remoteCandidates [ev] ++ remoteCandidates evs.
Proof.
  unfold remoteCandidates. simpl. now rewrite app_nil_r.
Qed.

Lemma gatheredCandidates_cons ev evs :
  gatheredCandidates (ev :: evs) =
  gatheredCandidates [ev] ++ gatheredCandidates evs.
Proof.
  unfold gatheredCandidates. simpl. now rewrite app_nil_r.
Qed.

Lemma handle_queues ev w :
  remoteCandidatesQueue (handle ev w) =
    remoteCandidatesQueue w ++ remoteCandidates [ev] /\
  localCandidatesQueue (handle ev w) =
    localCandidatesQueue w ++ gatheredCandidates [ev].
Proof.
  destruct ev as [e| |[c|]|c]; simpl; rewrite ?app_nil_r.
  - auto.
  - unfold onsignalingstatechange.
    destruct (signalingState (pc w)); auto.
    destruct (drain_queues w) as [-> [-> _]]. auto.
  - unfold onicecandidate, push.
    destruct (String.eqb (candidate c) EmptyString) eqn:Ht; simpl;
      rewrite ?app_nil_r; auto.
  - auto.
  - destruct (addIceCandidate_queues w c) as [-> ->]. auto.
Qed.

(** X1. Whatever happens to a peer (candidates of the other side handed
    over in any signaling state, closed included, state changes
    reported, the engine moving on), [remoteCandidatesQueue] grows by
    exactly the candidates handed to [addIceCandidate], in the order of
    the calls. *)
Theorem remoteCandidatesQueue_records_all evs w :
  remoteCandidatesQueue (handleAll evs w) =
  remoteCandidatesQueue w ++ remoteCandidates evs.
Proof.
  revert w. induction evs as [|ev evs IH]; intros w.
  - simpl. now rewrite app_nil_r.
  - unfold handleAll in *. simpl fold_left. rewrite IH.
    destruct (handle_queues ev w) as [-> _].
    rewrite (remoteCandidates_cons ev evs). now rewrite app_assoc.
Qed.

(** X5. Over any sequence of events, [localCandidatesQueue] grows by
    one new object for each candidate the engine reported that is
    neither [null] nor an empty text, in the order of the reports; the
    object holds the text of the candidate alone ([sdpMid] and
    [sdpMLineIndex] are not kept); no other event touches the queue. *)
Theorem localCandidatesQueue_records_gathered evs w :
  localCandidatesQueue (handleAll evs w) =
  localCandidatesQueue w ++ gatheredCandidates evs.
Proof.
  revert w. induction evs as [|ev evs IH]; intros w.
  - simpl. now rewrite app_nil_r.
  - unfold handleAll in *. simpl fold_left. rewrite IH.
    destruct (handle_queues ev w) as [_ ->].
    rewrite (gatheredCandidates_cons ev evs). now rewrite app_assoc.
Qed.

Lemma appliedCandidates_app l1 l2 :
  appliedCandidates (l1 ++ l2) = appliedCandidates l1 ++ appliedCandidates l2.
Proof. apply flat_map_app. Qed.

Lemma appliedCandidates_map l :
  appliedCandidates (map AddIceCandidate l) = l.
Proof.
  induction l as [|c l IH]; simpl; [reflexivity | now rewrite IH].
Qed.

(** The candidates the engine has been given, followed by the buffered
    ones. *)
Lemma handle_conserves ev w :
  Permutation
    (appliedCandidates (engineCalls (handle ev w)) ++ iceCandidateList (handle ev w))
    (appliedCandidates (engineCalls w) ++ iceCandidateList w
       ++ acceptedCandidates [ev] w).
Proof.
  destruct ev as [e| |lc|c]; simpl; rewrite ?app_nil_r.
  - reflexivity.
  - unfold onsignalingstatechange.
    destruct (signalingState (pc w)); try reflexivity.
    rewrite drain_engineCalls, drain_iceCandidateList.
    rewrite appliedCandidates_app, appliedCandidates_map.
    now rewrite app_nil_r.
  - unfold onicecandidate. destruct lc as [lc|]; [|reflexivity].
    destruct (negb _); reflexivity.
  - destruct (signalingState (pc w)) eqn:Hs; simpl;
      try (rewrite addIceCandidate_buffers by congruence; simpl;
           unfold push; reflexivity).
    + destruct (remoteDescription (pc w)) eqn:Hr.
      * rewrite addIceCandidate_applies by congruence. simpl.
        rewrite appliedCandidates_app. simpl. rewrite <- app_assoc.
        apply Permutation_app_head. apply Permutation_app_comm.
      * rewrite addIceCandidate_buffers by congruence. simpl.
        unfold push. reflexivity.
    + rewrite addIceCandidate_closed by assumption. simpl.
      now rewrite app_nil_r.
Qed.

(** X2. No candidate of the other side is lost or handed over twice:
    after any sequence of events, the candidates the engine has been
    given together with those still buffered are, up to their order,
    those given or buffered before together with those handed to
    [addIceCandidate] while the connection was not closed. *)
Theorem candidates_conserved evs w :
  Permutation
    (appliedCandidates (engineCalls (handleAll evs w))
       ++ iceCandidateList (handleAll evs w))
    (appliedCandidates (engineCalls w) ++ iceCandidateList w
       ++ acceptedCandidates evs w).
Proof.
  revert w. induction evs as [|ev evs IH]; intros w.
  - simpl. now rewrite app_nil_r.
  - unfold handleAll in *. simpl fold_left. rewrite IH.
    rewrite app_assoc. rewrite (handle_conserves ev w).
    simpl acceptedCandidates. rewrite !app_nil_r, <- !app_assoc.
    reflexivity.
Qed.

Lemma listener_nothing w :
  iceCandidateList w = [] -> onsignalingstatechange w = w.
Proof.
  intros Hnil. unfold onsignalingstatechange.
  destruct (signalingState (pc w)); auto using drain_nothing.
Qed.

(** X3. The buffer is flushed once.  Running the listener a second time
    changes nothing; and after a flush in state [stable], whatever state
    the engine is in when it next reports a change, the listener finds
    nothing to hand over. *)
Theorem flush_once w :
  onsignalingstatechange (onsignalingstatechange w) =
    onsignalingstatechange w /\
  (signalingState (pc w) = stable ->
   forall e : E,
     onsignalingstatechange (set_pc e (onsignalingstatechange w)) =
     set_pc e (onsignalingstatechange w)).
Proof.
  assert (Hcase : signalingState (pc w) <> stable /\ onsignalingstatechange w = w \/
                  iceCandidateList (onsignalingstatechange w) = []).
  { unfold onsignalingstatechange.
    destruct (signalingState (pc w)); try (left; split; [discriminate|reflexivity]).
    right. apply drain_iceCandidateList. }
  split.
  - destruct Hcase as [[_ Heq]|Hnil].
    + rewrite Heq. exact Heq.
    + now apply listener_nothing.
  - intros Hs e. destruct Hcase as [[Hne _]|Hnil]; [now elim Hne|].
    now apply listener_nothing.
Qed.

(** X4. After [dispose()], on an engine whose [close()] moves it to
    [closed], [addIceCandidate(c)] rejects with "PeerConnection object
    is closed", calls nothing on the engine and buffers nothing; [c]
    still enters [remoteCandidatesQueue], which holds [c] alone if the
    disposal was the one that closed the connection. *)
Theorem addIceCandidate_after_dispose w c :
  (forall e : E, signalingState (invoke Close e) = closed) ->
  promiseState (snd (addIceCandidate c (dispose w))) =
    Some (Rejected (JsError "PeerConnection object is closed")) /\
  reactions (snd (addIceCandidate c (dispose w))) = [] /\
  engineCalls (fst (addIceCandidate c (dispose w))) = engineCalls (dispose w) /\
  iceCandidateList (fst (addIceCandidate c (dispose w))) = iceCandidateList w /\
  (signalingState (pc w) <> closed ->
   remoteCandidatesQueue (fst (addIceCandidate c (dispose w))) = [c]).
Proof.
  intros Hclose.
  assert (Hs : signalingState (pc (dispose w)) = closed).
  { destruct (signalingState (pc w)) eqn:Hw;
      try (rewrite dispose_open by congruence; simpl; apply Hclose).
    now rewrite dispose_closed. }
  rewrite addIceCandidate_closed by assumption. simpl.
  repeat split.
  - unfold dispose. destruct (signalingState (pc w)); reflexivity.
  - intros Hopen. rewrite dispose_open by assumption. reflexivity.
Qed.

End Candidates.

Section Negotiation.

Context {E : Type} `{RTCPeerConnection E}.

Implicit Types w : WebRtcPeer E.

(** *** What the negotiation leaves alone *)

Lemma sameSession_refl w : sameSession w w.
Proof. repeat split. Qed.

Lemma sameSession_trans w1 w2 w3 :
  sameSession w1 w2 -> sameSession w2 w3 -> sameSession w1 w3.
Proof.
  unfold sameSession. intros (A1 & A2 & A3 & A4 & A5 & A6 & A7).
  intros (B1 & B2 & B3 & B4 & B5 & B6 & B7).
  repeat split; congruence.
Qed.

Lemma keeps_ret {A : Type} (a : A) : keepsSession (@ret E A a).
Proof. intros w p. apply sameSession_refl. Qed.

Lemma keeps_return {A : Type} : keepsSession (@return_ E A).
Proof. intros w p. apply sameSession_refl. Qed.

Lemma keeps_this : keepsSession (@this E).
Proof. intros w p. apply sameSession_refl. Qed.

Lemma keeps_resolve v : keepsSession (@resolve E v).
Proof. intros w p. apply sameSession_refl. Qed.

Lemma keeps_reject v : keepsSession (@reject E v).
Proof. intros w p. apply sameSession_refl. Qed.

Lemma keeps_update f :
  (forall w, sameSession w (f w)) -> keepsSession (update f).
Proof. intros Hf w p. apply Hf. Qed.

Lemma keeps_pc_call c : keepsSession (update (pc_call c)).
Proof. apply keeps_update. intros w. repeat split. Qed.

Lemma keeps_pc_then c h : keepsSession (pc_then c h).
Proof. intros w p. repeat split. Qed.

Lemma keeps_bind {A B : Type} (m : Exec E A) (k : A -> Exec E B) :
  keepsSession m -> (forall a, keepsSession (k a)) -> keepsSession (bind m k).
Proof.
  intros Hm Hk w p. unfold bind. specialize (Hm w p).
  destruct (m (w, p)) as [[a|] [w1 p1]]; simpl in *.
  - eapply sameSession_trans; [exact Hm | apply Hk].
  - exact Hm.
Qed.

Lemma keeps_forOf {A : Type} (l : list A) (body : A -> Exec E unit) :
  (forall x, keepsSession (body x)) -> keepsSession (forOf l body).
Proof.
  intros Hb. induction l as [|x l IH]; simpl.
  - apply keeps_ret.
  - apply keeps_bind; [apply Hb | intros _; exact IH].
Qed.

Lemma keeps_newPromise (executor : Exec E unit) w :
  keepsSession executor -> sameSession w (fst (newPromise executor w)).
Proof. intros Hk. apply Hk. Qed.

Create HintDb keeps.

#[local] Hint Resolve keeps_ret keeps_return keeps_this keeps_resolve
  keeps_reject keeps_pc_call keeps_pc_then : keeps.

Ltac keeps_step :=
  first
    [ progress cbv zeta
    | apply keeps_bind; [|intros ?]
    | apply keeps_forOf; intros ?
    | match goal with
      | |- keepsSession (if ?b then _ else _) => destruct b
      | |- keepsSession (match ?x with _ => _ end) => destruct x
      end
    | solve [auto with keeps] ].

Lemma createOffer_keepsSession w : sameSession w (fst (createOffer w)).
Proof.
  apply keeps_newPromise. repeat keeps_step.
Qed.

Lemma createAnswer_keepsSession w : sameSession w (fst (createAnswer w)).
Proof. apply keeps_newPromise. repeat keeps_step. Qed.

(** X9. None of the six negotiation methods touches the lists of
    candidates ([remoteCandidatesQueue], [localCandidatesQueue],
    [iceCandidateList]) or the [mode], [id], [mediaConstraints] and
    [simulcast] of the configuration. *)
Theorem negotiation_keeps_session w offer0 (sdp0 : string) :
  sameSession w (fst (createOffer w)) /\
  sameSession w (fst (createAnswer w)) /\
  sameSession w (fst (processLocalOffer offer0 w)) /\
  sameSession w (fst (processRemoteOffer sdp0 w)) /\
  sameSession w (fst (processLocalAnswer offer0 w)) /\
  sameSession w (fst (processRemoteAnswer sdp0 w)).
Proof.
  split; [apply createOffer_keepsSession|].
  split; [apply createAnswer_keepsSession|].
  repeat split;
    apply keeps_newPromise; unfold setRemoteDescription; repeat keeps_step.
Qed.

End Negotiation.

Section Outcomes.

Context {E : Type} `{RTCPeerConnection E}.

Implicit Types w : WebRtcPeer E.

(** *** Promises settle once *)

Lemma runHandlers_settles h o w (p : Promise) :
  exists s, runHandlers h o w p = settle s p.
Proof.
  unfold runHandlers.
  destruct o; [destruct h; [| |destruct (localDescription (pc w))]|]; eauto.
Qed.

(** Once settled, a promise keeps its state whatever the engine does. *)
Lemma future_settled (p q : Promise) s :
  future (E := E) p q -> promiseState p = Some s -> promiseState q = Some s.
Proof.
  induction 1 as [p|p i o w p' q Hd _ IH]; intros Hs; [exact Hs|].
  apply IH. unfold deliver in Hd.
  destruct (nth_error (reactions p) i) as [[c h]|]; [|discriminate].
  injection Hd as <-.
  destruct (runHandlers_settles h o w
    {| settleCalls := settleCalls p;
       reactions := remove_nth i (reactions p) |}) as [s' ->].
  now apply settle_first.
Qed.

Lemma willSettle_future (p q : Promise) :
  willSettle p -> future (E := E) p q -> reactions q = [] ->
  promiseState q <> None.
Proof.
  intros Hw Hf. induction Hf as [p|p i o w p' q Hd _ IH]; intros Hr.
  - destruct Hw as [Hs|Hs]; [exact Hs | now elim Hs].
  - apply IH; [|exact Hr]. left. eapply deliver_settles. exact Hd.
Qed.

(** X13. Every operation but [createAnswer] on an engine without
    [getTransceivers] settles: once the engine has settled every promise
    the operation waits for, the promise the operation returned is
    resolved or rejected. *)
Theorem operations_settle w d (sdp0 : string) c (q : Promise) :
  (future (E := E) (snd (createOffer w)) q \/
   (hasMethod "getTransceivers" (pc w) = true /\
    future (E := E) (snd (createAnswer w)) q) \/
   future (E := E) (snd (processLocalOffer d w)) q \/
   future (E := E) (snd (processRemoteOffer sdp0 w)) q \/
   future (E := E) (snd (processLocalAnswer d w)) q \/
   future (E := E) (snd (processRemoteAnswer sdp0 w)) q \/
   future (E := E) (snd (addIceCandidate c w)) q) ->
  reactions q = [] ->
  promiseState q <> None.
Proof.
  intros Hf Hr.
  destruct Hf as [Hf|[[Hm Hf]|[Hf|[Hf|[Hf|[Hf|Hf]]]]]];
    (eapply willSettle_future; [|exact Hf|exact Hr]).
  - apply createOffer_willSettle.
  - now apply createAnswer_modern_willSettle.
  - apply processLocalOffer_willSettle.
  - apply processRemoteOffer_willSettle.
  - apply processLocalAnswer_willSettle.
  - apply processRemoteAnswer_willSettle.
  - apply addIceCandidate_willSettle.
Qed.

(** *** createAnswer on an engine with [getTransceivers] *)

Lemma createAnswer_modern w :
  hasMethod "getTransceivers" (pc w) = true ->
  (forall tc m (e : E),
     getTransceivers (invoke (SetDirection tc m) e) = getTransceivers e) ->
  engineCalls (fst (createAnswer w)) =
    engineCalls w ++ directionCalls w ++ [CreateAnswer] /\
  settleCalls (snd (createAnswer w)) = missingKinds w /\
  reactions (snd (createAnswer w)) = [(CreateAnswer, ThenResolveWith)].
Proof.
  intros Hm Hdir.
  unfold createAnswer, newPromise, bind, this. simpl. rewrite Hm.
  unfold directionCalls, missingKinds, wanted.
  unfold mediaConstraints_get, bind, this, update, ret, reject, pc_then.
  simpl.
  destruct (audio (mediaConstraints (configuration w))) eqn:Ha,
           (video (mediaConstraints (configuration w))) eqn:Hv; simpl;
    fold (transceiverFor "audio" w); fold (transceiverFor "video" w);
    try (destruct (transceiverFor "audio" w) as [tcA|]; simpl);
    rewrite ?Ha, ?Hv, ?Hdir; simpl;
    fold (transceiverFor "video" w);
    try (destruct (transceiverFor "video" w) as [tcV|]; simpl);
    rewrite <- ?app_assoc; auto.
Qed.

(** X6. On an engine with [getTransceivers] (on which forcing a
    direction does not change the list of transceivers),
    [createAnswer()] forces the direction of the first transceiver of
    each wanted kind to the mode of the peer, audio before video, calls
    [reject] once for each wanted kind that has none, and in any case
    asks the engine for an answer; when no kind is missing it resolves
    with the very answer the engine gives. *)
Theorem createAnswer_forces_directions w :
  hasMethod "getTransceivers" (pc w) = true ->
  (forall tc m (e : E),
     getTransceivers (invoke (SetDirection tc m) e) = getTransceivers e) ->
  engineCalls (fst (createAnswer w)) =
    engineCalls w ++ directionCalls w ++ [CreateAnswer] /\
  settleCalls (snd (createAnswer w)) = missingKinds w /\
  (missingKinds w = [] ->
   forall v w2,
     option_map promiseState
       (deliver 0 (Fulfilled v) w2 (snd (createAnswer w))) =
     Some (Some (Fulfilled v))).
Proof.
  intros Hm Hdir.
  destruct (createAnswer_modern w Hm Hdir) as [Hc [Hs Hr]].
  split; [exact Hc|]. split; [exact Hs|].
  intros Hnone v w2. unfold deliver. rewrite Hr. simpl.
  unfold promiseState, settle. simpl. rewrite Hs, Hnone. reflexivity.
Qed.

(** X7. When a wanted kind has no transceiver, [createAnswer()] rejects
    with the error of the first such kind; it asks the engine for an
    answer all the same, and whatever the engine answers later the
    promise stays rejected with that error. *)
Theorem createAnswer_missing_transceiver_rejects w r :
  hasMethod "getTransceivers" (pc w) = true ->
  (forall tc m (e : E),
     getTransceivers (invoke (SetDirection tc m) e) = getTransceivers e) ->
  hd_error (missingKinds w) = Some r ->
  promiseState (snd (createAnswer w)) = Some r /\
  In CreateAnswer (engineCalls (fst (createAnswer w))) /\
  forall q, future (E := E) (snd (createAnswer w)) q -> promiseState q = Some r.
Proof.
  intros Hm Hdir Hr.
  destruct (createAnswer_modern w Hm Hdir) as [Hc [Hs _]].
  assert (Hp : promiseState (snd (createAnswer w)) = Some r).
  { unfold promiseState. now rewrite Hs. }
  split; [exact Hp|]. split.
  - rewrite Hc. apply in_or_app. right. apply in_or_app. right. now left.
  - intros q Hf. exact (future_settled _ _ _ Hf Hp).
Qed.

(** *** createOffer *)

Lemma createOffer_promise w :
  (exists msg, snd (createOffer w) =
     {| settleCalls := [Rejected msg]; reactions := [] |}) \/
  (exists c, snd (createOffer w) =
     {| settleCalls := []; reactions := [(c, ThenResolveWith)] |}).
Proof.
  unfold createOffer, newPromise, bind, this. simpl.
  destruct (hasMethod "addTransceiver" (pc w)).
  - destruct (mode (configuration w)) eqn:Hmode; simpl.
    + destruct (mediaStream (configuration w)) as [ms|]; simpl.
      * rewrite (forOf_pc_call (fun t => _)). simpl. right. eexists. reflexivity.
      * left. eexists. reflexivity.
    + unfold mediaConstraints_get, bind, this, update, ret, pc_then. simpl.
      destruct (audio (mediaConstraints (configuration w))) eqn:Ha,
               (video (mediaConstraints (configuration w))) eqn:Hv;
        simpl; rewrite ?Ha, ?Hv; simpl; right; eexists; reflexivity.
    + destruct (mediaStream (configuration w)) as [ms|]; simpl.
      * rewrite (forOf_pc_call (fun t => _)). simpl. right. eexists. reflexivity.
      * left. eexists. reflexivity.
  - destruct (mediaStream (configuration w)) as [ms|]; simpl.
    + rewrite (forOf_pc_call (fun t => _)). simpl. right. eexists. reflexivity.
    + right. eexists. reflexivity.
Qed.

(** X18. When [createOffer()] has not rejected by itself, it settles as
    the engine's [createOffer] does: it resolves with the very offer the
    engine gives, and rejects with the very error of the engine. *)
Theorem createOffer_hands_on_the_offer w :
  promiseState (snd (createOffer w)) = None ->
  forall w2 v,
    option_map promiseState
      (deliver 0 (Fulfilled v) w2 (snd (createOffer w))) =
      Some (Some (Fulfilled v)) /\
    option_map promiseState
      (deliver 0 (Rejected v) w2 (snd (createOffer w))) =
      Some (Some (Rejected v)).
Proof.
  intros Hp w2 v.
  destruct (createOffer_promise w) as [[msg Heq]|[c Heq]];
    rewrite Heq in *; [discriminate|].
  split; reflexivity.
Qed.

(** X8. On an engine without [addTransceiver], [createOffer()] never
    rejects by itself, not even when it is to send and has no stream: it
    adds each track of the stream, if there is one, by [addTrack], in
    order, adds no transceiver, and asks for an offer with
    [offerToReceiveAudio] and [offerToReceiveVideo] set to the media
    constraint of the kind, or to [false] in mode [sendonly]. *)
Theorem createOffer_legacy w :
  hasMethod "addTransceiver" (pc w) = false ->
  let c := configuration w in
  let options :=
    {| offerToReceiveAudio :=
         match mode c with sendonly => false | _ => audio (mediaConstraints c) end;
       offerToReceiveVideo :=
         match mode c with sendonly => false | _ => video (mediaConstraints c) end |} in
  engineCalls (fst (createOffer w)) =
    engineCalls w
    ++ match mediaStream c with
       | Some ms => map (fun t => AddTrack t ms) (getTracks ms)
       | None => []
       end
    ++ [CreateOffer (Some options)] /\
  snd (createOffer w) =
    {| settleCalls := [];
       reactions := [(CreateOffer (Some options), ThenResolveWith)] |}.
Proof.
  intros Hm c options. subst c options. split.
  - rewrite createOffer_engineCalls. unfold createOffer_calls. rewrite Hm.
    destruct (mode (configuration w)); reflexivity.
  - unfold createOffer, newPromise, bind, this. simpl. rewrite Hm.
    destruct (mediaStream (configuration w)) as [ms|]; simpl.
    + rewrite (forOf_pc_call (fun t => _)). simpl.
      destruct (mode (configuration w)); reflexivity.
    + destruct (mode (configuration w)); reflexivity.
Qed.

(** X10. [createOffer()] in mode [recvonly] on an engine with
    [addTransceiver] replaces the media stream of the configuration by
    the stream of the last transceiver it made (that of video if video
    is wanted, else that of audio), and so drops a stream the peer was
    configured with; when no kind is wanted it keeps the configuration.
    On every other path the configuration stays as it was. *)
Theorem createOffer_configuration w :
  let c := configuration w in
  let n := nextStreamId w in
  (hasMethod "addTransceiver" (pc w) = true -> mode c = recvonly ->
   mediaStream (configuration (fst (createOffer w))) =
     (if video (mediaConstraints c)
      then Some {| streamId := if audio (mediaConstraints c) then S n else n;
                   getTracks := [] |}
      else if audio (mediaConstraints c)
      then Some {| streamId := n; getTracks := [] |}
      else mediaStream c)) /\
  (hasMethod "addTransceiver" (pc w) = false \/ mode c <> recvonly ->
   configuration (fst (createOffer w)) = c).
Proof.
  intros c n. subst c n. split.
  - intros Hm Hmode.
    unfold createOffer, newPromise, bind, this. simpl.
    rewrite Hm, Hmode. simpl.
    unfold mediaConstraints_get, bind, this, update, ret, pc_then. simpl.
    destruct (audio (mediaConstraints (configuration w))) eqn:Ha,
             (video (mediaConstraints (configuration w))) eqn:Hv;
      simpl; rewrite ?Ha, ?Hv; simpl; reflexivity.
  - intros Hcase.
    unfold createOffer, newPromise, bind, this. simpl.
    destruct (hasMethod "addTransceiver" (pc w)).
    + destruct Hcase as [Hcase|Hcase]; [discriminate|].
      destruct (mode (configuration w)); try (now elim Hcase); simpl;
        destruct (mediaStream (configuration w)) as [ms|]; simpl;
        try reflexivity;
        rewrite (forOf_pc_call (fun t => _)); simpl;
        clear; generalize w; induction (getTracks ms); intros; simpl;
        try reflexivity; rewrite IHl; reflexivity.
    + destruct (mediaStream (configuration w)) as [ms|]; simpl;
        try reflexivity.
      rewrite (forOf_pc_call (fun t => _)). simpl.
      clear. generalize w. induction (getTracks ms); intros; simpl;
        try reflexivity. rewrite IHl. reflexivity.
Qed.

End Outcomes.

Section Descriptions.

Context {E : Type} `{RTCPeerConnection E}.

Implicit Types w : WebRtcPeer E.

(** X11. [processLocalAnswer] on a closed connection rejects with
    "RTCPeerConnection is closed when trying to set local description",
    hands the answer to [setLocalDescription] of the engine all the
    same, and stays rejected with that text whatever the engine does
    with the answer. *)
Theorem processLocalAnswer_closed w answer0 :
  signalingState (pc w) = closed ->
  promiseState (snd (processLocalAnswer answer0 w)) =
    Some (Rejected (JsString
      "RTCPeerConnection is closed when trying to set local description")) /\
  engineCalls (fst (processLocalAnswer answer0 w)) =
    engineCalls w ++ [SetLocalDescription answer0] /\
  forall q,
    future (E := E) (snd (processLocalAnswer answer0 w)) q ->
    promiseState q =
      Some (Rejected (JsString
        "RTCPeerConnection is closed when trying to set local description")).
Proof.
  intros Hs.
  assert (Heq : processLocalAnswer answer0 w =
    (pc_call (SetLocalDescription answer0) w,
     {| settleCalls := [Rejected (JsString
          "RTCPeerConnection is closed when trying to set local description")];
        reactions := [(SetLocalDescription answer0, ThenResolve)] |})).
  { unfold processLocalAnswer, newPromise, bind, this. simpl. now rewrite Hs. }
  rewrite Heq. simpl. repeat split.
  intros q Hf. exact (future_settled _ _ _ Hf eq_refl).
Qed.

(** X12. [processLocalOffer] has no test of the signaling state: in
    every state it hands the offer to [setLocalDescription] of the
    engine and waits.  It resolves when the engine fulfils and then
    reports a local description, rejects with "Local description is not
    defined" when the engine fulfils and reports none, and rejects with
    the engine's error when the engine rejects. *)
Theorem processLocalOffer_outcomes w offer0 :
  engineCalls (fst (processLocalOffer offer0 w)) =
    engineCalls w ++ [SetLocalDescription offer0] /\
  promiseState (snd (processLocalOffer offer0 w)) = None /\
  forall w2 v,
    option_map promiseState
      (deliver 0 (Fulfilled v) w2 (snd (processLocalOffer offer0 w))) =
      Some (Some
        match localDescription (pc w2) with
        | Some _ => Fulfilled JsUndefined
        | None => Rejected (JsString "Local description is not defined")
        end) /\
    option_map promiseState
      (deliver 0 (Rejected v) w2 (snd (processLocalOffer offer0 w))) =
      Some (Some (Rejected v)).
Proof.
  unfold processLocalOffer, newPromise, deliver. simpl.
  repeat split. destruct (localDescription (pc w2)); reflexivity.
Qed.

(** X17. On a connection that is not closed, [processRemoteOffer] and
    [processRemoteAnswer] make one call of [setRemoteDescription], with
    the text tagged [offer] and [answer], and settle as the engine does:
    they resolve (with no value) when it fulfils and reject with the
    engine's own error when it rejects. *)
Theorem processRemote_open w (sdp0 : string) :
  signalingState (pc w) <> closed ->
  engineCalls (fst (processRemoteOffer sdp0 w)) =
    engineCalls w ++ [SetRemoteDescription {| type := offer; sdp := sdp0 |}] /\
  engineCalls (fst (processRemoteAnswer sdp0 w)) =
    engineCalls w ++ [SetRemoteDescription {| type := answer; sdp := sdp0 |}] /\
  promiseState (snd (processRemoteOffer sdp0 w)) = None /\
  promiseState (snd (processRemoteAnswer sdp0 w)) = None /\
  forall w2 v,
    option_map promiseState
      (deliver 0 (Fulfilled v) w2 (snd (processRemoteOffer sdp0 w))) =
      Some (Some (Fulfilled JsUndefined)) /\
    option_map promiseState
      (deliver 0 (Rejected v) w2 (snd (processRemoteOffer sdp0 w))) =
      Some (Some (Rejected v)) /\
    option_map promiseState
      (deliver 0 (Fulfilled v) w2 (snd (processRemoteAnswer sdp0 w))) =
      Some (Some (Fulfilled JsUndefined)) /\
    option_map promiseState
      (deliver 0 (Rejected v) w2 (snd (processRemoteAnswer sdp0 w))) =
      Some (Some (Rejected v)).
Proof.
  intros Hs.
  assert (Ha : processRemoteAnswer sdp0 w =
    (pc_call (SetRemoteDescription {| type := answer; sdp := sdp0 |}) w,
     {| settleCalls := [];
        reactions := [(SetRemoteDescription {| type := answer; sdp := sdp0 |},
                       ThenResolve)] |})).
  { unfold processRemoteAnswer, setRemoteDescription, newPromise, bind, this.
    simpl. destruct (signalingState (pc w)); try reflexivity. now elim Hs. }
  rewrite Ha, (processRemoteOffer_open w sdp0 Hs). simpl.
  repeat split.
Qed.

End Descriptions.

Section Construction.

Context {E : Type} `{RTCPeerConnection E}.

Variable freeice : list RTCIceServer.
Variable uuidv4 : string.
Variable new_RTCPeerConnection : list RTCIceServer -> E.

(** X14. The constructor makes the engine with the ICE servers of the
    caller when the caller gives at least one, and with those of
    [freeice()] when the caller gives none or an empty list; so,
    [freeice()] giving at least one, the engine is never made without a
    server. *)
Theorem constructor_iceServers_default (c : WebRtcPeerConfigurationInit) :
  let w := WebRtcPeer_constructor freeice uuidv4 new_RTCPeerConnection c in
  (forall servers, init_iceServers c = Some servers -> servers <> [] ->
     pc w = new_RTCPeerConnection servers) /\
  (init_iceServers c = None \/ init_iceServers c = Some [] ->
     pc w = new_RTCPeerConnection freeice) /\
  (freeice <> [] ->
     exists servers, servers <> [] /\ pc w = new_RTCPeerConnection servers).
Proof.
  intros w. subst w.
  unfold WebRtcPeer_constructor, WebRtcPeer_new, constructor_iceServers.
  simpl. split; [|split].
  - intros servers -> Hne. destruct servers; [now elim Hne | reflexivity].
  - intros [->| ->]; reflexivity.
  - intros Hne. destruct (init_iceServers c) as [[|server servers]|].
    + exists freeice. auto.
    + exists (server :: servers). split; [discriminate | reflexivity].
    + exists freeice. auto.
Qed.

(** X15. A new peer answers [getId()] with the id of the caller when
    that is given and not empty, and with the generated one otherwise
    (an empty id counts as none); so, the generated id not being empty,
    [getId()] is never empty.  The id, like the mode, is then kept by
    every negotiation method. *)
Theorem getId_of_new_peer (c : WebRtcPeerConfigurationInit) :
  let w := WebRtcPeer_constructor freeice uuidv4 new_RTCPeerConnection c in
  (forall s, init_id c = Some s -> s <> EmptyString -> getId w = s) /\
  (init_id c = None \/ init_id c = Some EmptyString -> getId w = uuidv4) /\
  (uuidv4 <> EmptyString -> getId w <> EmptyString) /\
  getId (fst (createOffer w)) = getId w /\
  getId (fst (createAnswer w)) = getId w.
Proof.
  intros w. subst w.
  unfold getId at 1 2 3, WebRtcPeer_constructor, WebRtcPeer_new,
    constructor_configuration, generateUniqueId. simpl.
  split; [|split; [|split; [|split]]].
  - intros s -> Hne. destruct (String.eqb_spec s EmptyString); congruence.
  - intros [->| ->]; reflexivity.
  - intros Hne. destruct (init_id c) as [s|]; [|exact Hne].
    destruct (String.eqb_spec s EmptyString); congruence.
  - unfold getId.
    destruct (createOffer_keepsSession
      (WebRtcPeer_constructor freeice uuidv4 new_RTCPeerConnection c))
      as (_ & _ & _ & _ & Hid & _).
    exact Hid.
  - unfold getId.
    destruct (createAnswer_keepsSession
      (WebRtcPeer_constructor freeice uuidv4 new_RTCPeerConnection c))
      as (_ & _ & _ & _ & Hid & _).
    exact Hid.
Qed.

End Construction.

Section Variants.

Context {E : Type} `{RTCPeerConnection E}.

Variable freeice : list RTCIceServer.
Variable uuidv4 : string.
Variable new_RTCPeerConnection : list RTCIceServer -> E.

(** X19. A [WebRtcPeerRecvonly] has the mode [recvonly] whatever mode
    the caller wrote.  On an engine with [addTransceiver] its
    [createOffer()] names no track, even when the caller configured a
    stream: it makes one receive-only transceiver for audio if audio is
    wanted and one for video if video is wanted, in this order, each on
    a new empty stream, and asks for the offer.  On an engine without
    [addTransceiver] it does add every track of a configured stream by
    [addTrack], and asks for an offer that is to receive the wanted
    kinds. *)
Theorem recvonly_peer_createOffer (c : WebRtcPeerConfigurationInit) :
  let w := WebRtcPeerRecvonly_constructor freeice uuidv4 new_RTCPeerConnection c in
  let mc := init_mediaConstraints c in
  let n := nextStreamId w in
  mode (configuration w) = recvonly /\
  (hasMethod "addTransceiver" (pc w) = true ->
   engineCalls (fst (createOffer w)) =
     (if audio mc then [recvonlyTransceiver "audio" n] else [])
     ++ (if video mc
         then [recvonlyTransceiver "video" (if audio mc then S n else n)]
         else [])
     ++ [CreateOffer None]) /\
  (hasMethod "addTransceiver" (pc w) = false ->
   engineCalls (fst (createOffer w)) =
     match mediaStream (configuration w) with
     | Some ms => map (fun t => AddTrack t ms) (getTracks ms)
     | None => []
     end
     ++ [CreateOffer (Some {| offerToReceiveAudio := audio mc;
                              offerToReceiveVideo := video mc |})]).
Proof.
  intros w mc n. subst w mc n. split; [reflexivity|].
  rewrite createOffer_engineCalls. unfold createOffer_calls.
  unfold WebRtcPeerRecvonly_constructor, WebRtcPeer_constructor. simpl.
  split; intros ->; reflexivity.
Qed.

(** X20. A [WebRtcPeerSendonly] never offers to receive, whatever mode
    and media constraints the caller wrote: on an engine without
    [addTransceiver] its [createOffer()] asks for an offer with
    [offerToReceiveAudio] and [offerToReceiveVideo] both [false]; on an
    engine with [addTransceiver] every transceiver it adds has the
    direction [sendonly]. *)
Theorem sendonly_peer_receives_nothing (c : WebRtcPeerConfigurationInit) :
  let w := WebRtcPeerSendonly_constructor freeice uuidv4 new_RTCPeerConnection c in
  mode (configuration w) = sendonly /\
  (hasMethod "addTransceiver" (pc w) = false ->
   exists added,
     engineCalls (fst (createOffer w)) =
       added ++ [CreateOffer (Some {| offerToReceiveAudio := false;
                                      offerToReceiveVideo := false |})]) /\
  (hasMethod "addTransceiver" (pc w) = true ->
   forall t init,
     In (AddTransceiverTrack t init) (engineCalls (fst (createOffer w))) ->
     direction init = sendonly) /\
  (forall k init,
     ~ In (AddTransceiverKind k init) (engineCalls (fst (createOffer w)))).
Proof.
  intros w. subst w. split; [reflexivity|].
  rewrite createOffer_engineCalls. unfold createOffer_calls.
  unfold WebRtcPeerSendonly_constructor, WebRtcPeer_constructor. simpl.
  set (ms := match init_mediaStream c with Some s => s | None => None end).
  split; [|split].
  - intros ->. eexists. reflexivity.
  - intros ->. destruct ms as [ms|]; [|intros t init []].
    intros t init Hin. apply in_app_or in Hin.
    destruct Hin as [Hin|[Hin|[]]]; [|discriminate].
    apply in_map_iff in Hin. destruct Hin as [t' [Heq _]].
    unfold trackTransceiver in Heq. now injection Heq as _ <-.
  - intros k init Hin.
    destruct (hasMethod "addTransceiver" _); destruct ms as [ms|];
      simpl in Hin; try (destruct Hin as [Hin|[]]; discriminate);
      try (destruct Hin).
    + apply in_app_or in Hin. destruct Hin as [Hin|[Hin|[]]]; [|discriminate].
      apply in_map_iff in Hin. destruct Hin as [t' [Heq _]]. discriminate.
    + apply in_app_or in Hin. destruct Hin as [Hin|[Hin|[]]]; [|discriminate].
      apply in_map_iff in Hin. destruct Hin as [t' [Heq _]]. discriminate.
Qed.

End Variants.

Section Connectivity.

Context {E : Type} `{RTCPeerConnection E}.

Implicit Types w : WebRtcPeer E.

(** X16. The listener of the ICE connection state logs one line for
    every state and calls [onIceConnectionStateException] for
    [disconnected] (with [ICE_CONNECTION_DISCONNECTED]) and for [failed]
    (with [ICE_CONNECTION_FAILED]) only, once, with the message it has
    logged; every message names the id of the peer and the other id. *)
Theorem iceConnectionState_classified (otherId : string)
  (st : RTCIceConnectionState) w :
  let fx := oniceconnectionstatechange otherId st w in
  (exists level msg tail,
     logged fx = [(level, msg)] /\
     msg = String.append "IceConnectionState of RTCPeerConnection "
             (String.append (id (configuration w))
                (String.append " ("
                   (String.append otherId (String.append ")" tail)))) /\
     (exceptions fx = [] \/ exists name, exceptions fx = [(name, msg)])) /\
  (st = ice_disconnected <->
     exists msg, exceptions fx = [(ICE_CONNECTION_DISCONNECTED, msg)]) /\
  (st = ice_failed <->
     exists msg, exceptions fx = [(ICE_CONNECTION_FAILED, msg)]) /\
  (st <> ice_disconnected -> st <> ice_failed -> exceptions fx = []).
Proof.
  intros fx. subst fx. split; [|split; [|split]].
  - destruct st; simpl; do 3 eexists;
      (split; [reflexivity|]); (split; [reflexivity|]); eauto.
  - destruct st; simpl; split; intros Hx;
      try discriminate; try reflexivity; eauto;
      destruct Hx as [msg Hx]; discriminate.
  - destruct st; simpl; split; intros Hx;
      try discriminate; try reflexivity; eauto;
      destruct Hx as [msg Hx]; discriminate.
  - intros Hd Hf. destruct st; simpl; try reflexivity;
      [now elim Hf | now elim Hd].
Qed.

End Connectivity.

(** ** The further properties at work on the reference engine *)

Lemma RefEngine_close (e : RefEngine) : signalingState (invoke Close e) = closed.
Proof. reflexivity. Qed.

Lemma RefEngine_direction tc m (e : RefEngine) :
  getTransceivers (invoke (SetDirection tc m) e) = getTransceivers e.
Proof. reflexivity. Qed.

(** The queues and the engine after [aNegotiation]; of the candidate
    of line 0 the engine reported, the text alone is kept. *)
Example aNegotiation_outcome :
  remoteCandidatesQueue (handleAll aNegotiation waiting) =
    [cand "a"; cand "b"; cand "c"; cand "late"] /\
  localCandidatesQueue (handleAll aNegotiation waiting) =
    [ {| candidate := "host"; sdpMid := None; sdpMLineIndex := None |} ] /\
  gatheredCandidates aNegotiation <> [candOfLine "host" 0] /\
  appliedCandidates (engineCalls (handleAll aNegotiation waiting)) =
    [cand "a"; cand "b"; cand "c"] /\
  iceCandidateList (handleAll aNegotiation waiting) = [] /\
  acceptedCandidates aNegotiation waiting = [cand "a"; cand "b"; cand "c"].
Proof. vm_compute. repeat split. discriminate. Qed.

Lemma flush_once_witness :
  let buffering := fst (addIceCandidate (cand "a") waiting) in
  let atStable := set_pc negotiated buffering in
  signalingState (pc atStable) = stable /\
  engineCalls (onsignalingstatechange atStable) = [AddIceCandidate (cand "a")] /\
  onsignalingstatechange
    (set_pc negotiated (onsignalingstatechange atStable)) =
  set_pc negotiated (onsignalingstatechange atStable).
Proof.
  intros buffering atStable.
  assert (Hs : signalingState (pc atStable) = stable) by reflexivity.
  destruct (flush_once atStable) as [_ Hagain].
  split; [exact Hs|]. split; [reflexivity|].
  exact (Hagain Hs negotiated).
Defined.

Lemma addIceCandidate_after_dispose_witness :
  (forall e : RefEngine, signalingState (invoke Close e) = closed) /\
  signalingState (pc negotiating) <> closed /\
  promiseState (snd (addIceCandidate (cand "late") (dispose negotiating))) =
    Some (Rejected (JsError "PeerConnection object is closed")) /\
  remoteCandidatesQueue (fst (addIceCandidate (cand "late") (dispose negotiating))) =
    [cand "late"].
Proof.
  assert (Hopen : signalingState (pc negotiating) <> closed) by discriminate.
  destruct (addIceCandidate_after_dispose negotiating (cand "late")
              RefEngine_close) as [Hp [_ [_ [_ Hq]]]].
  split; [exact RefEngine_close|]. split; [exact Hopen|].
  split; [exact Hp | exact (Hq Hopen)].
Defined.

Lemma operations_settle_witness :
  let sdpOffer := JsDescription {| type := offer; sdp := "v=0" |} in
  let p := snd (createOffer offerer) in
  let q := {| settleCalls := [Fulfilled sdpOffer]; reactions := [] |} in
  promiseState p = None /\
  reactions p = [(CreateOffer None, ThenResolveWith)] /\
  deliver 0 (Fulfilled sdpOffer) offerer p = Some q /\
  future (E := RefEngine) p q /\
  reactions q = [] /\
  promiseState q <> None.
Proof.
  intros sdpOffer p q.
  assert (Hd : deliver 0 (Fulfilled sdpOffer) offerer p = Some q)
    by reflexivity.
  assert (Hf : future (E := RefEngine) p q).
  { eapply future_deliver; [exact Hd | apply future_now]. }
  assert (Hr : reactions q = []) by reflexivity.
  split; [reflexivity|]. split; [reflexivity|]. split; [exact Hd|].
  split; [exact Hf|]. split; [exact Hr|].
  apply (operations_settle offerer {| type := offer; sdp := "v=0" |}
           "v=0" (cand "late") q); [|exact Hr].
  left. exact Hf.
Defined.

Lemma createAnswer_forces_directions_witness :
  hasMethod "getTransceivers" (pc answerer) = true /\
  missingKinds answerer = [] /\
  engineCalls (fst (createAnswer answerer)) =
    [ SetDirection
        {| mid := 0; receiver := {| track := {| trackId := 10; kind := "audio" |} |} |}
        sendrecv;
      SetDirection
        {| mid := 1; receiver := {| track := {| trackId := 11; kind := "video" |} |} |}
        sendrecv;
      CreateAnswer ] /\
  settleCalls (snd (createAnswer answerer)) = [].
Proof.
  assert (Hm : hasMethod "getTransceivers" (pc answerer) = true) by reflexivity.
  destruct (createAnswer_forces_directions answerer Hm RefEngine_direction)
    as [Hc [Hs _]].
  split; [exact Hm|]. split; [reflexivity|].
  split; [exact Hc | exact Hs].
Defined.

Lemma createAnswer_missing_transceiver_rejects_witness :
  let r := Rejected (JsError
    "audio requested, but no transceiver was created from remote description") in
  hasMethod "getTransceivers" (pc offerer) = true /\
  hd_error (missingKinds offerer) = Some r /\
  promiseState (snd (createAnswer offerer)) = Some r /\
  In CreateAnswer (engineCalls (fst (createAnswer offerer))).
Proof.
  intros r.
  assert (Hm : hasMethod "getTransceivers" (pc offerer) = true) by reflexivity.
  assert (Hr : hd_error (missingKinds offerer) = Some r) by reflexivity.
  destruct (createAnswer_missing_transceiver_rejects offerer r Hm
              RefEngine_direction Hr) as [Hp [Hin _]].
  split; [exact Hm|]. split; [exact Hr|]. split; [exact Hp | exact Hin].
Defined.

Lemma createOffer_hands_on_the_offer_witness :
  let sdpOffer := JsDescription {| type := offer; sdp := "v=0" |} in
  promiseState (snd (createOffer offerer)) = None /\
  option_map promiseState
    (deliver 0 (Fulfilled sdpOffer) offerer (snd (createOffer offerer))) =
  Some (Some (Fulfilled sdpOffer)).
Proof.
  intros sdpOffer.
  assert (Hp : promiseState (snd (createOffer offerer)) = None) by reflexivity.
  destruct (createOffer_hands_on_the_offer offerer Hp offerer sdpOffer)
    as [Hres _].
  split; [exact Hp | exact Hres].
Defined.

Lemma createOffer_legacy_witness :
  hasMethod "addTransceiver" (pc legacyPeer) = false /\
  engineCalls (fst (createOffer legacyPeer)) =
    [ AddTrack {| trackId := 0; kind := "audio" |} camera;
      AddTrack {| trackId := 1; kind := "video" |} camera;
      CreateOffer (Some {| offerToReceiveAudio := true;
                           offerToReceiveVideo := true |}) ].
Proof.
  assert (Hm : hasMethod "addTransceiver" (pc legacyPeer) = false)
    by reflexivity.
  destruct (createOffer_legacy legacyPeer Hm) as [Hc _].
  split; [exact Hm | exact Hc].
Defined.

Lemma createOffer_configuration_witness :
  let w := WebRtcPeer_new (config recvonly true false (Some camera))
             (modernEngine stable) in
  hasMethod "addTransceiver" (pc w) = true /\
  mode (configuration w) = recvonly /\
  mediaStream (configuration w) = Some camera /\
  mediaStream (configuration (fst (createOffer w))) =
    Some {| streamId := 1; getTracks := [] |}.
Proof.
  intros w.
  assert (Hm : hasMethod "addTransceiver" (pc w) = true) by reflexivity.
  assert (Hmode : mode (configuration w) = recvonly) by reflexivity.
  destruct (createOffer_configuration w) as [Hrecv _].
  split; [exact Hm|]. split; [exact Hmode|]. split; [reflexivity|].
  exact (Hrecv Hm Hmode).
Defined.

Lemma processLocalAnswer_closed_witness :
  signalingState (pc closedPeer) = closed /\
  promiseState (snd (processLocalAnswer {| type := answer; sdp := "v=0" |} closedPeer)) =
    Some (Rejected (JsString
      "RTCPeerConnection is closed when trying to set local description")) /\
  engineCalls (fst (processLocalAnswer {| type := answer; sdp := "v=0" |} closedPeer)) =
    [SetLocalDescription {| type := answer; sdp := "v=0" |}].
Proof.
  assert (Hs : signalingState (pc closedPeer) = closed) by reflexivity.
  destruct (processLocalAnswer_closed closedPeer
              {| type := answer; sdp := "v=0" |} Hs) as [Hp [Hc _]].
  split; [exact Hs|]. split; [exact Hp | exact Hc].
Defined.

Lemma processRemote_open_witness :
  signalingState (pc waiting) <> closed /\
  engineCalls (fst (processRemoteAnswer "v=0" waiting)) =
    [SetRemoteDescription {| type := answer; sdp := "v=0" |}] /\
  promiseState (snd (processRemoteAnswer "v=0" waiting)) = None.
Proof.
  assert (Hs : signalingState (pc waiting) <> closed) by discriminate.
  destruct (processRemote_open waiting "v=0" Hs) as [_ [Hc [_ [Hp _]]]].
  split; [exact Hs|]. split; [exact Hc | exact Hp].
Defined.

Lemma constructor_iceServers_default_witness :
  let w := WebRtcPeer_constructor stunServers "0b1c" new_ConfiguredEngine
             callerConfiguration in
  init_iceServers callerConfiguration = Some [] /\
  stunServers <> [] /\
  cfg_iceServers (pc w) = stunServers /\
  exists servers,
    servers <> [] /\ pc w = new_ConfiguredEngine servers.
Proof.
  intros w.
  destruct (constructor_iceServers_default stunServers "0b1c"
              new_ConfiguredEngine callerConfiguration)
    as [_ [Hdefault Hne]].
  assert (Hempty : init_iceServers callerConfiguration = Some []) by reflexivity.
  assert (Hstun : stunServers <> []) by discriminate.
  split; [exact Hempty|]. split; [exact Hstun|]. split.
  - subst w. rewrite (Hdefault (or_intror Hempty)). reflexivity.
  - exact (Hne Hstun).
Defined.

Lemma getId_of_new_peer_witness :
  let w := WebRtcPeer_constructor stunServers "0b1c" (fun _ => modernEngine stable)
             callerConfiguration in
  init_id callerConfiguration = Some EmptyString /\
  "0b1c" <> EmptyString /\
  getId w = "0b1c" /\
  getId w <> EmptyString.
Proof.
  intros w.
  destruct (getId_of_new_peer stunServers "0b1c" (fun _ => modernEngine stable)
              callerConfiguration) as [_ [Hgen [Hne _]]].
  assert (Hempty : init_id callerConfiguration = Some EmptyString)
    by reflexivity.
  assert (Huuid : "0b1c" <> EmptyString) by discriminate.
  split; [exact Hempty|]. split; [exact Huuid|].
  split; [exact (Hgen (or_intror Hempty)) | exact (Hne Huuid)].
Defined.

Lemma recvonly_peer_createOffer_witness :
  let w := WebRtcPeerRecvonly_constructor stunServers "0b1c"
             (fun _ => modernEngine stable) callerConfiguration in
  let old := WebRtcPeerRecvonly_constructor stunServers "0b1c"
               (fun _ => legacyEngine stable) callerConfiguration in
  init_mode callerConfiguration = Some sendrecv /\
  mediaStream (configuration w) = Some camera /\
  hasMethod "addTransceiver" (pc w) = true /\
  hasMethod "addTransceiver" (pc old) = false /\
  mode (configuration w) = recvonly /\
  engineCalls (fst (createOffer w)) =
    [recvonlyTransceiver "audio" 1; CreateOffer None] /\
  engineCalls (fst (createOffer old)) =
    [ AddTrack {| trackId := 0; kind := "audio" |} camera;
      AddTrack {| trackId := 1; kind := "video" |} camera;
      CreateOffer (Some {| offerToReceiveAudio := true;
                           offerToReceiveVideo := false |}) ].
Proof.
  intros w old.
  assert (Hm : hasMethod "addTransceiver" (pc w) = true) by reflexivity.
  assert (Ho : hasMethod "addTransceiver" (pc old) = false) by reflexivity.
  destruct (recvonly_peer_createOffer stunServers "0b1c"
              (fun _ => modernEngine stable) callerConfiguration)
    as [Hmode [Hmodern _]].
  destruct (recvonly_peer_createOffer stunServers "0b1c"
              (fun _ => legacyEngine stable) callerConfiguration)
    as [_ [_ Hlegacy]].
  split; [reflexivity|]. split; [reflexivity|].
  split; [exact Hm|]. split; [exact Ho|]. split; [exact Hmode|].
  split; [exact (Hmodern Hm) | exact (Hlegacy Ho)].
Defined.

Lemma sendonly_peer_receives_nothing_witness :
  let w := WebRtcPeerSendonly_constructor stunServers "0b1c"
             (fun _ => legacyEngine stable) callerConfiguration in
  hasMethod "addTransceiver" (pc w) = false /\
  audio (init_mediaConstraints callerConfiguration) = true /\
  mode (configuration w) = sendonly /\
  exists added,
    engineCalls (fst (createOffer w)) =
      added ++ [CreateOffer (Some {| offerToReceiveAudio := false;
                                     offerToReceiveVideo := false |})].
Proof.
  intros w.
  assert (Hm : hasMethod "addTransceiver" (pc w) = false) by reflexivity.
  destruct (sendonly_peer_receives_nothing stunServers "0b1c"
              (fun _ => legacyEngine stable) callerConfiguration)
    as [Hmode [Hlegacy _]].
  split; [exact Hm|]. split; [reflexivity|].
  split; [exact Hmode | exact (Hlegacy Hm)].
Defined.

Lemma iceConnectionState_classified_witness :
  exists msg,
    exceptions (oniceconnectionstatechange "other" ice_failed offerer) =
      [(ICE_CONNECTION_FAILED, msg)] /\
    exceptions (oniceconnectionstatechange "other" ice_closed offerer) = [].
Proof.
  destruct (iceConnectionState_classified "other" ice_failed offerer)
    as [_ [_ [[Hfailed _] _]]].
  destruct (Hfailed eq_refl) as [msg Hmsg].
  exists msg. split; [exact Hmsg | reflexivity].
Defined.
